(** * autoclass-migrator: a shallow embedding of [main.py]

    The script reads a CSV of (project, bucket) pairs, and for every pair
    fetches the bucket from Google Cloud Storage, switches Autoclass on with
    terminal storage class ARCHIVE when that is not yet the case, patches the
    bucket and reports one dictionary per bucket.  [process_bucket] is wrapped
    by the decorator [retry_with_backoff]; [process_csv] fans the rows out to
    a thread pool of 20 workers and gathers the results as they complete.

    The Python code is embedded as programs of a small free monad [Prog]
    whose operations are the calls the script makes to the outside world
    (client construction, [get_bucket], [patch], [logging], [random.uniform],
    [time.sleep]).  Programs are interpreted against an explicit [World]
    (the remote service, the outcomes the service is going to give, the
    jitter source, the event trace and the file system), either one program
    to completion ([run]) or several interleaved ([run_schedule]).

    Python's [int] is [Z]; Python's [float] is the binary64 format of
    IEEE 754, with the operations of [SpecFloat] (round to nearest, ties to
    even). *)

From Stdlib Require Import ZArith Lia Ascii SpecFloat.
From stdpp Require Import base option list strings gmap pretty.
From Equations Require Import Equations.

Local Open Scope Z_scope.

(** ** Exceptions *)

(** The exception classes the script names, the ones of
    [google.api_core.exceptions] the specification lists as terminal, and the
    two built-in classes the arithmetic and the [time.sleep] of the decorator
    raise.  Every constructor carries [str(e)].  In [google.api_core.exceptions] the classes
    [TooManyRequests], [InternalServerError] and [ServiceUnavailable] derive
    from [GoogleAPICallError], which derives from [GoogleAPIError]. *)
Inductive exn : Type :=
| TooManyRequests (msg : string)
| InternalServerError (msg : string)
| ServiceUnavailable (msg : string)
| NotFound (msg : string)
| Forbidden (msg : string)
| BadRequest (msg : string)
| GoogleAPIError (msg : string)
| FileNotFoundError (msg : string)
| ValueError (msg : string)
| OverflowError (msg : string)
| PyException (msg : string).

(** [str(e)] *)
Definition str (e : exn) : string :=
  match e with
  | TooManyRequests m | InternalServerError m | ServiceUnavailable m
  | NotFound m | Forbidden m | BadRequest m | GoogleAPIError m
  | FileNotFoundError m | ValueError m | OverflowError m | PyException m => m
  end.

(** [isinstance(e, (TooManyRequests, InternalServerError, ServiceUnavailable))],
    the [except] clause of the retry decorator. *)
Definition is_transient (e : exn) : bool :=
  match e with
  | TooManyRequests _ | InternalServerError _ | ServiceUnavailable _ => true
  | _ => false
  end.

(** [isinstance(e, GoogleAPIError)], the [except] clause of [process_bucket]. *)
Definition is_GoogleAPIError (e : exn) : bool :=
  match e with
  | TooManyRequests _ | InternalServerError _ | ServiceUnavailable _
  | NotFound _ | Forbidden _ | BadRequest _ | GoogleAPIError _ => true
  | FileNotFoundError _ | ValueError _ | OverflowError _ | PyException _ => false
  end.

(** The terminal API errors of the specification: not found, permission
    denied, invalid argument. *)
Definition is_terminal_api_error (e : exn) : bool :=
  match e with
  | NotFound _ | Forbidden _ | BadRequest _ => true
  | _ => false
  end.

(** ** Numbers *)

(** Python's [float]: binary64, 53 bits of precision, exponents below 1024. *)
Definition prec : Z := 53.
Definition emax : Z := 1024.

Abbreviation float := spec_float.

(** [x + y] and [x * y] on floats: the exact result rounded to the nearest
    float, ties to even; neither raises. *)
Definition float_add (x y : float) : float := SFadd prec emax x y.
Definition float_mul (x y : float) : float := SFmul prec emax x y.

(** The float nearest to the integer [n] (an infinity when [n] is out of
    range). *)
Definition nearest_float (n : Z) : float := binary_normalize prec emax n 0 false.

(** [float(n)] for an [int], as the arithmetic operators apply it to an
    [int] operand that meets a [float]: the nearest float, [OverflowError]
    when that is out of range. *)
Definition float_of_int (n : Z) : exn + float :=
  match nearest_float n with
  | S754_infinity _ => inl (OverflowError "int too large to convert to float")
  | x => inr x
  end.

(** The numbers the decorator computes with. *)
Inductive number : Type :=
| PyInt (n : Z)
| PyFloat (x : float).

(** [a * n] for an [int] [n]: exact on two [int]s; a [float] times an [int]
    converts the [int] first. *)
Definition mul_int (a : number) (n : Z) : exn + number :=
  match a with
  | PyInt m => inr (PyInt (m * n))
  | PyFloat x =>
      match float_of_int n with
      | inl e => inl e
      | inr y => inr (PyFloat (float_mul x y))
      end
  end.

(** [a + y] for a [float] [y]: an [int] on the left is converted first. *)
Definition add_float (a : number) (y : float) : exn + float :=
  match a with
  | PyInt m =>
      match float_of_int m with
      | inl e => inl e
      | inr x => inr (float_add x y)
      end
  | PyFloat x => inr (float_add x y)
  end.

(** What [time.sleep(secs)] raises for a float [secs] before it sleeps, as
    CPython does it: the duration is converted to a signed 64-bit count of
    nanoseconds ([secs * 1e9], rounded away from zero, which changes neither
    test below); a NaN is refused, then a count out of range, then a
    negative one. *)
Definition sleep_refuses (secs : float) : option exn :=
  match secs with
  | S754_nan => Some (ValueError "Invalid value NaN (not a number)")
  | _ =>
      let ns := float_mul secs (nearest_float 1000000000) in
      if negb (SFleb (nearest_float (- 2 ^ 63)) ns && SFltb ns (nearest_float (2 ^ 63))) then
        Some (OverflowError "timestamp too large to convert to C _PyTime_t")
      else if SFltb ns (S754_zero false) then
        Some (ValueError "sleep length must be non-negative")
      else None
  end.

(** ** Python values and dictionaries *)

Inductive value : Type :=
| VNone
| VBool (b : bool)
| VStr (s : string).

(** A [str]-or-[None] attribute as a dictionary value. *)
Definition of_attr (a : option string) : value :=
  match a with
  | Some s => VStr s
  | None => VNone
  end.

(** The result dictionaries: string keys, Python values. *)
Abbreviation Row := (gmap string value).

(** ** The bucket object and the remote service *)

(** The properties of a bucket the script reads. *)
Record BucketProps : Type := mkProps {
  storage_class : option string;
  location : option string;
  location_type : option string;
  autoclass_enabled : bool;
  autoclass_terminal_storage_class : option string;
  requester_pays : bool
}.

(** The client-side [storage.Bucket] object: its name and the properties it
    holds locally until [patch] sends them. *)
Record Bucket : Type := mkBucket {
  name : string;
  props : BucketProps
}.

(** [bucket.autoclass_enabled = v] *)
Definition set_autoclass_enabled (v : bool) (b : Bucket) : Bucket :=
  let p := props b in
  mkBucket (name b)
    (mkProps (storage_class p) (location p) (location_type p) v
       (autoclass_terminal_storage_class p) (requester_pays p)).

(** [bucket.autoclass_terminal_storage_class = v] *)
Definition set_autoclass_terminal_storage_class (v : option string) (b : Bucket) : Bucket :=
  let p := props b in
  mkBucket (name b)
    (mkProps (storage_class p) (location p) (location_type p)
       (autoclass_enabled p) v (requester_pays p)).

Record Client : Type := mkClient { client_project : string }.

(** ** Events and the world *)

Inductive level : Type := INFO | WARNING | ERROR.

Inductive event : Type :=
| EClient (project_id : string)
| EGetBucket (project_id bucket_name : string)
| EPatch (b : Bucket)
| ELog (lvl : level) (msg : string)
| ESleep (secs : float)
| EToCsv (path : string).

(** The world the script runs in.
    - [remote]: the buckets of the storage service, by bucket name (the
      name space of buckets is global);
    - [faults]: what the next calls to the service are going to do, one
      entry per call in the order the calls are made: [None] lets the call
      through, [Some e] makes it raise [e]; an exhausted list lets every
      call through;
    - [jitter]: the floats [random.uniform(0, 1)] is going to return, [0.0]
      once the list is exhausted;
    - [trace]: everything the script did, oldest first;
    - [inputs]: the CSV files that can be read, as their rows
      ([GOOGLE_PROJECT_ID], [BUCKET_NAME]);
    - [outputs]: the CSV files written. *)
Record World : Type := mkWorld {
  remote : gmap string BucketProps;
  faults : list (option exn);
  jitter : list float;
  trace : list event;
  inputs : gmap string (list (string * string));
  outputs : gmap string (list Row)
}.

Definition emit (ev : event) (w : World) : World :=
  mkWorld (remote w) (faults w) (jitter w) (trace w ++ [ev]) (inputs w) (outputs w).

Definition next_fault (w : World) : option exn * World :=
  match faults w with
  | [] => (None, w)
  | f :: fs => (f, mkWorld (remote w) fs (jitter w) (trace w) (inputs w) (outputs w))
  end.

Definition set_remote (r : gmap string BucketProps) (w : World) : World :=
  mkWorld r (faults w) (jitter w) (trace w) (inputs w) (outputs w).

(** [storage.Client(project=project_id)] *)
Definition world_client (project_id : string) (w : World) : (exn + Client) * World :=
  let '(f, w) := next_fault (emit (EClient project_id) w) in
  match f with
  | Some e => (inl e, w)
  | None => (inr (mkClient project_id), w)
  end.

(** [client.get_bucket(bucket_name)] *)
Definition world_get_bucket (c : Client) (bucket_name : string) (w : World)
  : (exn + Bucket) * World :=
  let '(f, w) := next_fault (emit (EGetBucket (client_project c) bucket_name) w) in
  match f with
  | Some e => (inl e, w)
  | None =>
      match remote w !! bucket_name with
      | Some p => (inr (mkBucket bucket_name p), w)
      | None => (inl (NotFound ("404 " +:+ bucket_name)), w)
      end
  end.

(** [bucket.patch()]: the properties held by the object replace the remote
    ones. *)
Definition world_patch (b : Bucket) (w : World) : (exn + unit) * World :=
  let '(f, w) := next_fault (emit (EPatch b) w) in
  match f with
  | Some e => (inl e, w)
  | None =>
      match remote w !! name b with
      | Some _ => (inr tt, set_remote (<[name b := props b]> (remote w)) w)
      | None => (inl (NotFound ("404 " +:+ name b)), w)
      end
  end.

(** [random.uniform(0, 1)] *)
Definition world_random (w : World) : float * World :=
  match jitter w with
  | [] => (S754_zero false, w)
  | j :: js => (j, mkWorld (remote w) (faults w) js (trace w) (inputs w) (outputs w))
  end.

(** ** Programs *)

Inductive Prog (A : Type) : Type :=
| Ret (a : A)
| Raise (e : exn)
| NewClient (project_id : string) (k : exn + Client -> Prog A)
| GetBucket (c : Client) (bucket_name : string) (k : exn + Bucket -> Prog A)
| Patch (b : Bucket) (k : exn + unit -> Prog A)
| Logging (lvl : level) (msg : string) (k : Prog A)
| RandomUniform (k : float -> Prog A)
| Sleep (secs : float) (k : Prog A).

Arguments Ret {A} a.
Arguments Raise {A} e.
Arguments NewClient {A} project_id k.
Arguments GetBucket {A} c bucket_name k.
Arguments Patch {A} b k.
Arguments Logging {A} lvl msg k.
Arguments RandomUniform {A} k.
Arguments Sleep {A} secs k.

Fixpoint bind {A B : Type} (p : Prog A) (f : A -> Prog B) : Prog B :=
  match p with
  | Ret a => f a
  | Raise e => Raise e
  | NewClient pid k => NewClient pid (fun r => bind (k r) f)
  | GetBucket c n k => GetBucket c n (fun r => bind (k r) f)
  | Patch b k => Patch b (fun r => bind (k r) f)
  | Logging l m k => Logging l m (bind k f)
  | RandomUniform k => RandomUniform (fun j => bind (k j) f)
  | Sleep s k => Sleep s (bind k f)
  end.

#[global] Instance Prog_ret : MRet Prog := @Ret.
#[global] Instance Prog_bind : MBind Prog := fun A B f p => bind p f.

(** [try: p  except <classes> as e: h e]; [catches] is the [isinstance] test
    of the clause.  An exception raised inside the handler is not caught. *)
Fixpoint try_except {A : Type} (p : Prog A) (catches : exn -> bool) (h : exn -> Prog A)
  : Prog A :=
  match p with
  | Ret a => Ret a
  | Raise e => if catches e then h e else Raise e
  | NewClient pid k => NewClient pid (fun r => try_except (k r) catches h)
  | GetBucket c n k => GetBucket c n (fun r => try_except (k r) catches h)
  | Patch b k => Patch b (fun r => try_except (k r) catches h)
  | Logging l m k => Logging l m (try_except k catches h)
  | RandomUniform k => RandomUniform (fun j => try_except (k j) catches h)
  | Sleep s k => Sleep s (try_except k catches h)
  end.

(** A call either returns its value or raises. *)
Definition lift {A : Type} (r : exn + A) : Prog A :=
  match r with
  | inl e => Raise e
  | inr a => Ret a
  end.

Definition get_storage_client (project_id : string) : Prog Client :=
  NewClient project_id lift.
Definition get_bucket (c : Client) (bucket_name : string) : Prog Bucket :=
  GetBucket c bucket_name lift.
Definition patch (b : Bucket) : Prog unit := Patch b lift.
Definition logging_info (msg : string) : Prog unit := Logging INFO msg (Ret tt).
Definition logging_warning (msg : string) : Prog unit := Logging WARNING msg (Ret tt).
Definition logging_error (msg : string) : Prog unit := Logging ERROR msg (Ret tt).
Definition random_uniform_0_1 : Prog float := RandomUniform Ret.
Definition time_sleep (secs : float) : Prog unit :=
  match sleep_refuses secs with
  | Some e => Raise e
  | None => Sleep secs (Ret tt)
  end.

(** ** Running programs *)

Inductive outcome (A : Type) : Type :=
| Returned (a : A)
| Raised (e : exn).
Arguments Returned {A} a.
Arguments Raised {A} e.

(** One step: the operation at the head of the program is performed. *)
Definition step {A : Type} (p : Prog A) (w : World) : Prog A * World :=
  match p with
  | Ret a => (Ret a, w)
  | Raise e => (Raise e, w)
  | NewClient pid k => let '(r, w) := world_client pid w in (k r, w)
  | GetBucket c n k => let '(r, w) := world_get_bucket c n w in (k r, w)
  | Patch b k => let '(r, w) := world_patch b w in (k r, w)
  | Logging l m k => (k, emit (ELog l m) w)
  | RandomUniform k => let '(j, w) := world_random w in (k j, w)
  | Sleep s k => (k, emit (ESleep s) w)
  end.

(** A program run to completion, alone. *)
Fixpoint run {A : Type} (p : Prog A) (w : World) : outcome A * World :=
  match p with
  | Ret a => (Returned a, w)
  | Raise e => (Raised e, w)
  | NewClient pid k => let '(r, w) := world_client pid w in run (k r) w
  | GetBucket c n k => let '(r, w) := world_get_bucket c n w in run (k r) w
  | Patch b k => let '(r, w) := world_patch b w in run (k r) w
  | Logging l m k => run k (emit (ELog l m) w)
  | RandomUniform k => let '(j, w) := world_random w in run (k j) w
  | Sleep s k => run k (emit (ESleep s) w)
  end.

(** ** The retry decorator *)

Section retry_with_backoff.
Context {A : Type}.
Variable retries : Z.
Variable backoff_in_seconds : number.
Variable func : Prog A.

(** [backoff_in_seconds * (2 ** attempt) + random.uniform(0, 1)] with [j]
    the float [random.uniform] returns: [attempt] is an [int] that is not
    negative, so [2 ** attempt] is an [int]; the sum is a [float], or the
    conversion of an [int] operand raises. *)
Definition sleep_time (attempt : Z) (j : float) : exn + float :=
  match mul_int backoff_in_seconds (2 ^ attempt) with
  | inl e => inl e
  | inr scaled => add_float scaled j
  end.

(** The [except] block of the loop, up to [attempt += 1].  The product is
    evaluated before [random.uniform] is called and the sum after. *)
Definition backoff (attempt : Z) (e : exn) : Prog unit :=
  logging_warning ("Retrying due to error: " +:+ str e);;
  scaled ← lift (mul_int backoff_in_seconds (2 ^ attempt));
  j ← random_uniform_0_1;
  sleep_time ← lift (add_float scaled j);
  time_sleep sleep_time.

(** The [while attempt < retries] loop of [wrapper], entered with the
    current value of [attempt]. *)
Equations? wrapper_loop (attempt : Z) : Prog A
  by wf (Z.to_nat (retries - attempt)) lt :=
  wrapper_loop attempt with Z_lt_dec attempt retries := {
    | left _ =>
        try_except func is_transient
          (fun e => backoff attempt e;; wrapper_loop (attempt + 1))
    | right _ =>
        Raise (PyException ("Failed after " +:+ pretty retries +:+ " retries")) }.
Proof. lia. Qed.

Definition wrapper : Prog A := wrapper_loop 0.
End retry_with_backoff.

Definition retry_with_backoff {A : Type} (retries : Z) (backoff_in_seconds : number)
  (func : Prog A) : Prog A :=
  wrapper retries backoff_in_seconds func.

(** ** [process_bucket] *)

(** [{**d, k1: v1, ..., kn: vn}] *)
Definition spread (d : Row) (kvs : list (string * value)) : Row :=
  foldl (fun m kv => <[kv.1 := kv.2]> m) d kvs.

(** The body of [process_bucket], before decoration. *)
Definition process_bucket_body (project_id bucket_name : string) : Prog Row :=
  let base_response :=
    spread ∅ [("project_id", VStr project_id); ("bucket_name", VStr bucket_name)] in
  try_except
    (client ← get_storage_client project_id;
     bucket ← get_bucket client bucket_name;
     let migrated := false in
     let response :=
       spread base_response
         [("storage_class", of_attr (storage_class (props bucket)));
          ("location", of_attr (location (props bucket)));
          ("location_type", of_attr (location_type (props bucket)));
          ("autoclass_enabled", VBool (autoclass_enabled (props bucket)));
          ("autoclass_terminal_storage_class",
            of_attr (autoclass_terminal_storage_class (props bucket)));
          ("requester_pays", VBool (requester_pays (props bucket)))] in
     '(bucket, migrated) ←
       (if negb (autoclass_enabled (props bucket)) then
          let bucket := set_autoclass_enabled true bucket in
          logging_info ("Autoclass enabled for bucket: " +:+ bucket_name
                        +:+ " in project " +:+ project_id);;
          mret (bucket, true)
        else mret (bucket, migrated));
     '(bucket, migrated) ←
       (if negb (bool_decide
                   (autoclass_terminal_storage_class (props bucket) = Some "ARCHIVE")) then
          let bucket := set_autoclass_terminal_storage_class (Some "ARCHIVE") bucket in
          logging_info ("Migrated bucket '" +:+ bucket_name +:+ "' in project '"
                        +:+ project_id +:+ "' to ARCHIVE.");;
          mret (bucket, true)
        else mret (bucket, migrated));
     if negb migrated then
       logging_info ("Skipped bucket '" +:+ bucket_name +:+ "' in project '"
                     +:+ project_id +:+ "': already in Autoclass/ARCHIVE.");;
       mret (spread response [("migration_status", VStr "Skipped")])
     else
       patch bucket;;
       mret (spread response [("migration_status", VStr "Migrated")]))
    is_GoogleAPIError
    (fun e =>
       logging_error ("Error processing bucket '" +:+ bucket_name +:+ "' in project '"
                      +:+ project_id +:+ "': " +:+ str e);;
       mret (spread base_response
               [("storage_class", VStr "");
                ("location", VStr "");
                ("location_type", VStr "");
                ("autoclass_enabled", VBool false);
                ("autoclass_terminal_storage_class", VStr "");
                ("requester_pays", VBool false);
                ("migration_status", VStr ("Error: " +:+ str e))])).

(** [@retry_with_backoff(retries=5) def process_bucket(...)] *)
Definition process_bucket (project_id bucket_name : string) : Prog Row :=
  retry_with_backoff 5 (PyInt 1) (process_bucket_body project_id bucket_name).

(** ** [process_csv] and the thread pool *)

Definition max_workers : nat := 20.

(** The state of the [with ThreadPoolExecutor(...)] block.
    - [futures]: one entry per submitted task, in submission order: what is
      left of the task's program ([Ret] and [Raise] are finished futures);
    - [started]: the work queue is first-in first-out, so the tasks taken by
      a worker so far are the first [started] ones;
    - [yielded]: the futures [as_completed] has handed to the loop, in that
      order;
    - [results]: the list the loop appends to. *)
Record Executor : Type := mkExecutor {
  futures : list (Prog Row);
  started : nat;
  yielded : list nat;
  results : list Row
}.

Definition is_done {A : Type} (p : Prog A) : bool :=
  match p with
  | Ret _ | Raise _ => true
  | _ => false
  end.

(** Workers that hold a task at the moment. *)
Definition running (st : Executor) : nat :=
  length (filter (fun p => is_done p = false) (take (started st) (futures st))).

(** What can happen next: a worker performs the next operation of task [i]
    (taking the task off the queue first when it is the next one and a worker
    is idle), or [as_completed] yields the finished future [i] and the loop
    body runs on it. *)
Inductive action : Type :=
| Work (i : nat)
| Collect (i : nat).

Definition work (i : nat) (st : Executor) (w : World) : Executor * World :=
  match futures st !! i with
  | None => (st, w)
  | Some p =>
      if bool_decide (i < started st)%nat then
        let '(p', w') := step p w in
        (mkExecutor (<[i := p']> (futures st)) (started st) (yielded st) (results st), w')
      else if bool_decide (i = started st) && bool_decide (running st < max_workers)%nat then
        let '(p', w') := step p w in
        (mkExecutor (<[i := p']> (futures st)) (S (started st)) (yielded st) (results st), w')
      else (st, w)
  end.

(** The body of the [for future in as_completed(futures)] loop. *)
Definition collect (i : nat) (st : Executor) (w : World) : Executor * World :=
  if bool_decide (i ∈ yielded st) then (st, w)
  else
    match futures st !! i with
    | Some (Ret result) =>
        (mkExecutor (futures st) (started st) (yielded st ++ [i]) (results st ++ [result]), w)
    | Some (Raise e) =>
        (mkExecutor (futures st) (started st) (yielded st ++ [i]) (results st),
         emit (ELog ERROR ("Error in processing thread: " +:+ str e)) w)
    | _ => (st, w)
    end.

Definition perform (a : action) (sw : Executor * World) : Executor * World :=
  match a with
  | Work i => work i sw.1 sw.2
  | Collect i => collect i sw.1 sw.2
  end.

Definition run_schedule (sched : list action) (sw : Executor * World) : Executor * World :=
  foldl (fun sw a => perform a sw) sw sched.

(** A task run to its end by its worker. *)
Definition settle {A : Type} (p : Prog A) (w : World) : Prog A * World :=
  let '(o, w') := run p w in
  (match o with Returned a => Ret a | Raised e => Raise e end, w').

Fixpoint settle_all (ps : list (Prog Row)) (w : World) : list (Prog Row) * World :=
  match ps with
  | [] => ([], w)
  | p :: ps =>
      let '(p', w1) := settle p w in
      let '(ps', w2) := settle_all ps w1 in
      (p' :: ps', w2)
  end.

(** The end of the block: whatever the schedule left undone is done, the
    unfinished tasks first, then the futures not yet yielded. *)
Definition drain (sw : Executor * World) : Executor * World :=
  let '(st, w) := sw in
  let '(fs, w1) := settle_all (futures st) w in
  let st1 := mkExecutor fs (length fs) (yielded st) (results st) in
  foldl (fun sw i => collect i sw.1 sw.2) (st1, w1) (seq 0 (length fs)).

(** [futures = [executor.submit(process_bucket, row[...], row[...]) for ...]] *)
Definition submit_all (df : list (string * string)) : Executor :=
  mkExecutor (map (fun row => process_bucket row.1 row.2) df) 0 [] [].

(** The thread pool block of [process_csv] under the schedule [sched]. *)
Definition gather (sched : list action) (df : list (string * string)) (w : World)
  : Executor * World :=
  drain (run_schedule sched (submit_all df, w)).

(** [results_df.to_csv(output_path, index=False)] *)
Definition to_csv (output_path : string) (rows : list Row) (w : World) : World :=
  let w := emit (EToCsv output_path) w in
  mkWorld (remote w) (faults w) (jitter w) (trace w) (inputs w)
    (<[output_path := rows]> (outputs w)).

Definition process_csv (sched : list action) (file_path output_path : string) (w : World)
  : outcome (list Row) * World :=
  match inputs w !! file_path with
  | None => (Raised (FileNotFoundError file_path), w)
  | Some df =>
      let '(st, w) := gather sched df w in
      (Returned (results st), to_csv output_path (results st) w)
  end.

(** * Vocabulary of the properties *)

(** ** Traces *)

(** The bucket objects [patch] was called on, oldest first. *)
Definition patches (t : list event) : list Bucket :=
  omap (fun ev => match ev with EPatch b => Some b | _ => None end) t.

(** The durations passed to [time.sleep]. *)
Definition sleeps (t : list event) : list float :=
  omap (fun ev => match ev with ESleep q => Some q | _ => None end) t.

(** The [get_bucket] calls, as (project, bucket name). *)
Definition gets (t : list event) : list (string * string) :=
  omap (fun ev => match ev with EGetBucket p b => Some (p, b) | _ => None end) t.

(** ** The pieces of one invocation of [process_bucket] *)

(** The fetch: the client is built and [get_bucket] is called on it. *)
Definition fetch (project_id bucket_name : string) (w : World) : (exn + Bucket) * World :=
  let '(r, w1) := world_client project_id w in
  match r with
  | inl e => (inl e, w1)
  | inr client => world_get_bucket client bucket_name w1
  end.

(** The bucket object once the two [if] blocks have run. *)
Definition corrected (bucket : Bucket) : Bucket :=
  let bucket :=
    if negb (autoclass_enabled (props bucket))
    then set_autoclass_enabled true bucket else bucket in
  if negb (bool_decide (autoclass_terminal_storage_class (props bucket) = Some "ARCHIVE"))
  then set_autoclass_terminal_storage_class (Some "ARCHIVE") bucket else bucket.

(** The world once the two [if] blocks have logged what they did. *)
Definition announced (project_id bucket_name : string) (bucket : Bucket) (w : World) : World :=
  let w :=
    if negb (autoclass_enabled (props bucket))
    then emit (ELog INFO ("Autoclass enabled for bucket: " +:+ bucket_name
                          +:+ " in project " +:+ project_id)) w
    else w in
  if negb (bool_decide (autoclass_terminal_storage_class (props bucket) = Some "ARCHIVE"))
  then emit (ELog INFO ("Migrated bucket '" +:+ bucket_name +:+ "' in project '"
                        +:+ project_id +:+ "' to ARCHIVE.")) w
  else w.

(** The dictionary returned on the two paths that do not fail. *)
Definition response_row (project_id bucket_name : string) (bp : BucketProps)
  (status : string) : Row :=
  spread
    (spread
       (spread ∅ [("project_id", VStr project_id); ("bucket_name", VStr bucket_name)])
       [("storage_class", of_attr (storage_class bp));
        ("location", of_attr (location bp));
        ("location_type", of_attr (location_type bp));
        ("autoclass_enabled", VBool (autoclass_enabled bp));
        ("autoclass_terminal_storage_class", of_attr (autoclass_terminal_storage_class bp));
        ("requester_pays", VBool (requester_pays bp))])
    [("migration_status", VStr status)].

(** The dictionary returned by the [except GoogleAPIError] block. *)
Definition error_row (project_id bucket_name : string) (e : exn) : Row :=
  spread
    (spread ∅ [("project_id", VStr project_id); ("bucket_name", VStr bucket_name)])
    [("storage_class", VStr "");
     ("location", VStr "");
     ("location_type", VStr "");
     ("autoclass_enabled", VBool false);
     ("autoclass_terminal_storage_class", VStr "");
     ("requester_pays", VBool false);
     ("migration_status", VStr ("Error: " +:+ str e))].

(** What [process_bucket] does with an exception raised inside its [try]. *)
Definition on_exception (project_id bucket_name : string) (e : exn) (w : World)
  : outcome Row * World :=
  if is_GoogleAPIError e then
    (Returned (error_row project_id bucket_name e),
     emit (ELog ERROR ("Error processing bucket '" +:+ bucket_name +:+ "' in project '"
                       +:+ project_id +:+ "': " +:+ str e)) w)
  else (Raised e, w).

(** ** Result rows *)

(** [s.startswith(pre)] *)
Fixpoint startswith (s pre : string) {struct pre} : bool :=
  match pre with
  | EmptyString => true
  | String a pre' =>
      match s with
      | EmptyString => false
      | String b s' => Ascii.eqb a b && startswith s' pre'
      end
  end.

Definition valid_status (s : string) : bool :=
  String.eqb s "Migrated" || String.eqb s "Skipped" || startswith s "Error: ".

(** The identity columns of a row. *)
Definition identity (r : Row) : option value * option value :=
  (r !! "project_id", r !! "bucket_name").

Definition identity_of (row : string * string) : option value * option value :=
  (Some (VStr row.1), Some (VStr row.2)).

Definition has_valid_status (r : Row) : Prop :=
  exists s, r !! "migration_status" = Some (VStr s) /\ valid_status s = true.

(** [r] is a report on the bucket of the input row. *)
Definition reports (project_id bucket_name : string) (r : Row) : Prop :=
  identity r = identity_of (project_id, bucket_name) /\ has_valid_status r.

(** ** Programs and worlds *)

(** [leaves G R E p]: whatever the calls of [p] answer, as long as they raise
    exceptions of [G] only, every value [p] can return satisfies [R] and every
    exception it can let escape satisfies [E]. *)
Fixpoint leaves {A : Type} (G : exn -> Prop) (R : A -> Prop) (E : exn -> Prop)
  (p : Prog A) : Prop :=
  match p with
  | Ret a => R a
  | Raise e => E e
  | NewClient _ k => forall r, (forall e, r = inl e -> G e) -> leaves G R E (k r)
  | GetBucket _ _ k => forall r, (forall e, r = inl e -> G e) -> leaves G R E (k r)
  | Patch _ k => forall r, (forall e, r = inl e -> G e) -> leaves G R E (k r)
  | Logging _ _ k => leaves G R E k
  | RandomUniform k => forall j, leaves G R E (k j)
  | Sleep _ k => leaves G R E k
  end.

(** The worlds whose scheduled faults are exceptions of [G] only. *)
Definition world_ok (G : exn -> Prop) (w : World) : Prop :=
  Forall (fun f => forall e, f = Some e -> G e) (faults w).

(** No call to the service is going to fail by a scheduled fault. *)
Definition calm (w : World) : Prop := Forall (fun f => f = None) (faults w).

(** ** Retries *)

(** The world after [k] invocations of [func] in a row that each raised a
    transient error and were each followed by a backoff of the decorator
    that returned, the first of them made as attempt number [attempt];
    [None] when one of the [k] invocations or backoffs does something
    else. *)
Fixpoint after_failures {A : Type} (backoff_in_seconds : number) (func : Prog A)
  (k : nat) (attempt : Z) (w : World) : option World :=
  match k with
  | O => Some w
  | S k' =>
      match run func w with
      | (Raised e, w1) =>
          if is_transient e then
            match run (backoff backoff_in_seconds attempt e) w1 with
            | (Returned _, w2) =>
                after_failures backoff_in_seconds func k' (attempt + 1) w2
            | (Raised _, _) => None
            end
          else None
      | (Returned _, _) => None
      end
  end.

(** ** Futures *)

Definition future_row (p : Prog Row) : option Row :=
  match p with
  | Ret r => Some r
  | _ => None
  end.

Definition future_exn (p : Prog Row) : option exn :=
  match p with
  | Raise e => Some e
  | _ => None
  end.

(** ** The state of the pool *)

(** [w'] is [w] some events later. *)
Definition extends (w w' : World) : Prop :=
  exists evs, trace w' = trace w ++ evs.

(** The futures [fs'] are the futures [fs] some steps later: as many, and
    the finished ones have not changed. *)
Definition advances (fs fs' : list (Prog Row)) : Prop :=
  length fs' = length fs
  /\ forall j p, fs !! j = Some p -> is_done p = true -> fs' !! j = Some p.

(** What the future of an input row can still become, with a service that
    raises exceptions of [G] only: a report on that row, or an exception
    that is not a [GoogleAPIError]. *)
Definition future_of (G : exn -> Prop) (row : string * string) (p : Prog Row) : Prop :=
  leaves G (reports row.1 row.2) (fun e => is_GoogleAPIError e = false /\ G e) p.

(** The line written to the log for a future that raised. *)
Definition thread_error (e : exn) : event :=
  ELog ERROR ("Error in processing thread: " +:+ str e).

(** The invariant of the [with] block on the input rows [df]. *)
Record pool_inv (G : exn -> Prop) (df : list (string * string))
    (st : Executor) (w : World) : Prop := mkPoolInv {
  inv_futures : Forall2 (future_of G) df (futures st);
  inv_world : world_ok G w;
  inv_nodup : NoDup (yielded st);
  inv_done : forall i, i ∈ yielded st ->
               exists p, futures st !! i = Some p /\ is_done p = true;
  inv_results : results st = omap (fun i => futures st !! i ≫= future_row) (yielded st);
  inv_logged : forall i e, i ∈ yielded st -> futures st !! i = Some (Raise e) ->
                 thread_error e ∈ trace w
}.

(** ** Sample worlds *)

Definition sample_props (enabled : bool) (terminal : option string) : BucketProps :=
  mkProps (Some "STANDARD") (Some "US") (Some "multi-region") enabled terminal false.

(** A world with the given buckets and scheduled faults, and nothing else. *)
Definition sample_world (buckets : list (string * BucketProps))
  (fl : list (option exn)) : World :=
  mkWorld (list_to_map buckets) fl [] [] ∅ ∅.

(** Bucket [b1] has Autoclass off, [b2] is already migrated, [b3] has
    Autoclass on with terminal class NEARLINE. *)
Definition sample_buckets : list (string * BucketProps) :=
  [("b1", sample_props false None);
   ("b2", sample_props true (Some "ARCHIVE"));
   ("b3", sample_props true (Some "NEARLINE"))].

(** [get_bucket] is rate-limited three times in a row, then the service
    answers: the faults are laid out for four attempts of client, fetch. *)
Definition thrice_rate_limited : list (option exn) :=
  [None; Some (TooManyRequests "429 Too Many Requests");
   None; Some (TooManyRequests "429 Too Many Requests");
   None; Some (TooManyRequests "429 Too Many Requests");
   None; None; None].

(** A function that is rate-limited on each of its first calls, as long as
    faults are scheduled, and returns [tt] afterwards. *)
Definition flaky : Prog unit :=
  GetBucket (mkClient "p") "b1" (fun r => match r with inl e => Raise e | inr _ => Ret tt end).

(** Three rows to process; the second call to the service fails with an
    exception that is not a [GoogleAPIError], the sixth with a terminal one. *)
Definition sample_input : World :=
  mkWorld (list_to_map sample_buckets)
    [None; Some (PyException "connection reset"); None; None; None;
     Some (NotFound "404 gone")]
    [] []
    {[ "in.csv" := [("p1", "b1"); ("p2", "b2"); ("p3", "b3")] ]} ∅.

(** The same rows with a service that fails by API errors only. *)
Definition sample_input_api : World :=
  mkWorld (list_to_map sample_buckets)
    [None; Some (Forbidden "403 denied"); None; None; None; Some (NotFound "404 gone")]
    [] []
    {[ "in.csv" := [("p1", "b1"); ("p2", "b2"); ("p3", "b3")] ]} ∅.

(** Task 0 starts, task 1 starts and overtakes it, and is collected first. *)
Definition sample_schedule : list action :=
  [Work 0; Work 1; Work 1; Work 1; Work 0; Collect 1; Work 2; Collect 0; Work 2].

(** * Vocabulary of the further properties *)

(** The [storage.Client] constructions, as their project. *)
Definition clients (t : list event) : list string :=
  omap (fun ev => match ev with EClient p => Some p | _ => None end) t.

(** The nine columns of the report. *)
Definition columns : gset string :=
  list_to_set
    ["project_id"; "bucket_name"; "storage_class"; "location"; "location_type";
     "autoclass_enabled"; "autoclass_terminal_storage_class"; "requester_pays";
     "migration_status"].

(** The properties of a bucket [process_bucket] never assigns. *)
Definition untouched (bp : BucketProps) : option string * option string * option string * bool :=
  (storage_class bp, location bp, location_type bp, requester_pays bp).

(** What one call of each kind costs; logging and writing the report are
    free. *)
Record tariff : Type := mkTariff {
  on_client : nat;
  on_get : nat;
  on_patch : nat;
  on_sleep : nat
}.

Definition cost (t : tariff) (ev : event) : nat :=
  match ev with
  | EClient _ => on_client t
  | EGetBucket _ _ => on_get t
  | EPatch _ => on_patch t
  | ESleep _ => on_sleep t
  | ELog _ _ | EToCsv _ => 0
  end.

(** The cost of everything a world has seen. *)
Definition total (t : tariff) (w : World) : nat := sum_list_with (cost t) (trace w).

(** [budget t n p]: whatever the calls answer, the calls [p] makes cost at
    most [n]. *)
Fixpoint budget {A : Type} (t : tariff) (n : nat) (p : Prog A) : Prop :=
  match p with
  | Ret _ | Raise _ => True
  | NewClient _ k => (on_client t <= n)%nat /\ forall r, budget t (n - on_client t) (k r)
  | GetBucket _ _ k => (on_get t <= n)%nat /\ forall r, budget t (n - on_get t) (k r)
  | Patch _ k => (on_patch t <= n)%nat /\ forall r, budget t (n - on_patch t) (k r)
  | Logging _ _ k => budget t n k
  | RandomUniform k => forall j, budget t n (k j)
  | Sleep _ k => (on_sleep t <= n)%nat /\ budget t (n - on_sleep t) k
  end.

(** The cost of one invocation of [process_bucket]. *)
Definition invocation_cost (t : tariff) : nat := on_client t + on_get t + on_patch t.

(** [keeps J p]: run from a service whose buckets satisfy [J], the calls of
    [p] leave it with buckets that satisfy [J]. *)
Fixpoint keeps {A : Type} (J : gmap string BucketProps -> Prop) (p : Prog A) : Prop :=
  match p with
  | Ret _ | Raise _ => True
  | NewClient _ k => forall r, keeps J (k r)
  | GetBucket c n k => forall w, J (remote w) -> keeps J (k (world_get_bucket c n w).1)
  | Patch b k =>
      forall w, J (remote w) ->
        J (remote (world_patch b w).2) /\ keeps J (k (world_patch b w).1)
  | Logging _ _ k => keeps J k
  | RandomUniform k => forall j, keeps J (k j)
  | Sleep _ k => keeps J k
  end.

(** The buckets [rm] are the buckets [rm0] but for the Autoclass settings
    of buckets named in [names]: the same bucket names, the same untouched
    properties, and every bucket is either as in [rm0] or one of [names]
    with Autoclass on and terminal class ARCHIVE. *)
Definition migration_of (rm0 : gmap string BucketProps) (names : list string)
  (rm : gmap string BucketProps) : Prop :=
  (forall n, untouched <$> rm !! n = untouched <$> rm0 !! n)
  /\ (forall n bp, rm !! n = Some bp ->
        rm0 !! n = Some bp
        \/ (n ∈ names /\ autoclass_enabled bp = true
            /\ autoclass_terminal_storage_class bp = Some "ARCHIVE")).

(** * The command line: the [__main__] block *)

(** [s.rfind(c)] for a one-character [c]: the highest index of [c] in [s],
    [-1] when there is none. *)
Fixpoint rfind_from (c : Ascii.ascii) (s : string) (i : Z) (found : Z) : Z :=
  match s with
  | EmptyString => found
  | String a s' => rfind_from c s' (i + 1) (if Ascii.eqb a c then i else found)
  end.

Definition rfind (c : Ascii.ascii) (s : string) : Z := rfind_from c s 0 (-1).

(** [s[i:j]] for [0 <= i <= j]. *)
Definition slice (s : string) (i j : Z) : string :=
  String.substring (Z.to_nat i) (Z.to_nat (j - i)) s.

Definition len (s : string) : Z := Z.of_nat (String.length s).

(** The [while filenameIndex < dotIndex] loop of [genericpath._splitext]:
    [Some] is the pair returned from inside the loop, [None] means the loop
    ran to its end. *)
Equations? splitext_loop (p : string) (dotIndex filenameIndex : Z)
  : option (string * string) by wf (Z.to_nat (dotIndex - filenameIndex)) lt :=
  splitext_loop p dotIndex filenameIndex with Z_lt_dec filenameIndex dotIndex := {
    | left _ =>
        if negb (String.eqb (slice p filenameIndex (filenameIndex + 1)) ".")
        then Some (slice p 0 dotIndex, slice p dotIndex (len p))
        else splitext_loop p dotIndex (filenameIndex + 1)
    | right _ => None }.
Proof. lia. Qed.

(** [os.path.splitext(p)] of [posixpath]: [sep = '/'], no [altsep],
    [extsep = '.']. *)
Definition splitext (p : string) : string * string :=
  let sepIndex := rfind "/"%char p in
  let dotIndex := rfind "."%char p in
  if bool_decide (dotIndex > sepIndex) then
    match splitext_loop p dotIndex (sepIndex + 1) with
    | Some r => r
    | None => (p, "")
    end
  else (p, "").

(** [f"{input_csv_file_name}_output{input_csv_file_extension}"] *)
Definition output_csv_file (input_csv_file : string) : string :=
  let '(input_csv_file_name, input_csv_file_extension) := splitext input_csv_file in
  input_csv_file_name +:+ "_output" +:+ input_csv_file_extension.

(** The [filename] given to [logging.basicConfig]. *)
Definition log_file (input_csv_file : string) : string :=
  let '(input_csv_file_name, _) := splitext input_csv_file in
  input_csv_file_name +:+ "_output.log".

(** * Properties *)

(** ** Running composed programs *)

Lemma run_bind {A B : Type} (p : Prog A) (f : A -> Prog B) (w : World) :
  run (p ≫= f) w =
  match run p w with
  | (Returned a, w') => run (f a) w'
  | (Raised e, w') => (Raised e, w')
  end.
Proof.
  change (p ≫= f) with (bind p f).
  revert w; induction p as [a|e|pid k IH|c n k IH|b k IH|l m k IH|k IH|q k IH];
    intros w; simpl; try reflexivity; try apply IH.
  - destruct (world_client pid w) as [r w']. apply IH.
  - destruct (world_get_bucket c n w) as [r w']. apply IH.
  - destruct (world_patch b w) as [r w']. apply IH.
  - destruct (world_random w) as [j w']. apply IH.
Qed.

Lemma run_try_except {A : Type} (p : Prog A) (catches : exn -> bool)
    (h : exn -> Prog A) (w : World) :
  run (try_except p catches h) w =
  match run p w with
  | (Returned a, w') => (Returned a, w')
  | (Raised e, w') => if catches e then run (h e) w' else (Raised e, w')
  end.
Proof.
  revert w; induction p as [a|e|pid k IH|c n k IH|b k IH|l m k IH|k IH|q k IH];
    intros w; simpl; try reflexivity; try apply IH.
  - destruct (catches e); reflexivity.
  - destruct (world_client pid w) as [r w']. apply IH.
  - destruct (world_get_bucket c n w) as [r w']. apply IH.
  - destruct (world_patch b w) as [r w']. apply IH.
  - destruct (world_random w) as [j w']. apply IH.
Qed.

Lemma run_step {A : Type} (p : Prog A) (w : World) :
  run (step p w).1 (step p w).2 = run p w.
Proof.
  destruct p as [a|e|pid k|c n k|b k|l m k|k|q k]; simpl; try reflexivity.
  - destruct (world_client pid w); reflexivity.
  - destruct (world_get_bucket c n w); reflexivity.
  - destruct (world_patch b w); reflexivity.
  - destruct (world_random w); reflexivity.
Qed.

(** ** What a program can end with *)

Section leaves.
Context {A : Type}.
Variable G : exn -> Prop.

Lemma leaves_mono (R R' : A -> Prop) (E E' : exn -> Prop) (p : Prog A) :
  (forall a, R a -> R' a) -> (forall e, E e -> E' e) ->
  leaves G R E p -> leaves G R' E' p.
Proof.
  intros HR HE. induction p; simpl; eauto.
Qed.

Lemma leaves_try_except (R : A -> Prop) (E E' : exn -> Prop) (p : Prog A)
    (catches : exn -> bool) (h : exn -> Prog A) :
  leaves G R E' p ->
  (forall e, E' e -> if catches e then leaves G R E (h e) else E e) ->
  leaves G R E (try_except p catches h).
Proof.
  intros Hp Hh. induction p; simpl in *; eauto.
  specialize (Hh e Hp). destruct (catches e); assumption.
Qed.

Hypothesis G_NotFound : forall m, G (NotFound m).

Lemma world_ok_emit ev w : world_ok G w -> world_ok G (emit ev w).
Proof. exact id. Qed.

Lemma next_fault_ok w :
  world_ok G w ->
  (forall e, (next_fault w).1 = Some e -> G e) /\ world_ok G (next_fault w).2.
Proof.
  unfold world_ok, next_fault. intros H.
  destruct (faults w) as [|f fs] eqn:Hf; simpl.
  - split; [discriminate | rewrite Hf; constructor].
  - inversion H; subst. split; assumption.
Qed.

Lemma world_client_ok pid w :
  world_ok G w ->
  (forall e, (world_client pid w).1 = inl e -> G e) /\ world_ok G (world_client pid w).2.
Proof.
  intros H. unfold world_client.
  destruct (next_fault_ok (emit (EClient pid) w) H) as [H1 H2].
  destruct (next_fault (emit (EClient pid) w)) as [[e|] w1]; simpl in *.
  - split; [intros e' [= <-]; auto | assumption].
  - split; [discriminate | assumption].
Qed.

Lemma world_get_bucket_ok c n w :
  world_ok G w ->
  (forall e, (world_get_bucket c n w).1 = inl e -> G e)
  /\ world_ok G (world_get_bucket c n w).2.
Proof.
  intros H. unfold world_get_bucket.
  destruct (next_fault_ok (emit (EGetBucket (client_project c) n) w) H) as [H1 H2].
  destruct (next_fault (emit (EGetBucket (client_project c) n) w)) as [[e|] w1];
    simpl in *.
  - split; [intros e' [= <-]; auto | assumption].
  - destruct (remote w1 !! n); simpl;
      (split; [intros e' [= <-] || discriminate; auto | assumption]).
Qed.

Lemma world_patch_ok b w :
  world_ok G w ->
  (forall e, (world_patch b w).1 = inl e -> G e) /\ world_ok G (world_patch b w).2.
Proof.
  intros H. unfold world_patch.
  destruct (next_fault_ok (emit (EPatch b) w) H) as [H1 H2].
  destruct (next_fault (emit (EPatch b) w)) as [[e|] w1]; simpl in *.
  - split; [intros e' [= <-]; auto | assumption].
  - destruct (remote w1 !! name b); simpl;
      (split; [intros e' [= <-] || discriminate; auto | assumption]).
Qed.

Lemma world_random_ok w : world_ok G w -> world_ok G (world_random w).2.
Proof.
  unfold world_random, world_ok. destruct (jitter w); simpl; auto.
Qed.

Lemma leaves_step (R : A -> Prop) (E : exn -> Prop) (p : Prog A) (w : World) :
  world_ok G w -> leaves G R E p ->
  leaves G R E (step p w).1 /\ world_ok G (step p w).2.
Proof.
  intros Hw Hp.
  destruct p as [a|e|pid k|c n k|b k|l m k|k|q k]; simpl in *; auto.
  - destruct (world_client_ok pid w Hw) as [H1 H2].
    destruct (world_client pid w) as [r w']; simpl in *. auto.
  - destruct (world_get_bucket_ok c n w Hw) as [H1 H2].
    destruct (world_get_bucket c n w) as [r w']; simpl in *. auto.
  - destruct (world_patch_ok b w Hw) as [H1 H2].
    destruct (world_patch b w) as [r w']; simpl in *. auto.
  - pose proof (world_random_ok w Hw) as H2.
    destruct (world_random w) as [j w']; simpl in *. auto.
Qed.

Lemma leaves_run (R : A -> Prop) (E : exn -> Prop) (p : Prog A) (w : World) :
  world_ok G w -> leaves G R E p ->
  match (run p w).1 with
  | Returned a => R a
  | Raised e => E e
  end /\ world_ok G (run p w).2.
Proof.
  revert w; induction p as [a|e|pid k IH|c n k IH|b k IH|l m k IH|k IH|q k IH];
    intros w Hw Hp; simpl in *; auto.
  - destruct (world_client_ok pid w Hw) as [H1 H2].
    destruct (world_client pid w) as [r w']; simpl in *. auto.
  - destruct (world_get_bucket_ok c n w Hw) as [H1 H2].
    destruct (world_get_bucket c n w) as [r w']; simpl in *. auto.
  - destruct (world_patch_ok b w Hw) as [H1 H2].
    destruct (world_patch b w) as [r w']; simpl in *. auto.
  - pose proof (world_random_ok w Hw) as H2.
    destruct (world_random w) as [j w']; simpl in *. auto.
Qed.
End leaves.

Lemma leaves_bind {A B : Type} (G : exn -> Prop) (R' : A -> Prop) (R : B -> Prop)
    (E : exn -> Prop) (p : Prog A) (f : A -> Prog B) :
  leaves G R' E p -> (forall a, R' a -> leaves G R E (f a)) ->
  leaves G R E (p ≫= f).
Proof.
  change (p ≫= f) with (bind p f).
  intros Hp Hf. induction p; simpl in *; eauto.
Qed.

(** ** The retry loop *)

Lemma wrapper_loop_eq {A : Type} (retries : Z) (base : number) (func : Prog A)
    (attempt : Z) :
  wrapper_loop retries base func attempt =
  if bool_decide (attempt < retries) then
    try_except func is_transient
      (fun e => backoff base attempt e;; wrapper_loop retries base func (attempt + 1))
  else Raise (PyException ("Failed after " +:+ pretty retries +:+ " retries")).
Proof.
  rewrite wrapper_loop_equation_1.
  destruct (Z_lt_dec attempt retries) as [H|H].
  - rewrite bool_decide_eq_true_2 by assumption. reflexivity.
  - rewrite bool_decide_eq_false_2 by assumption. reflexivity.
Qed.

Lemma run_backoff (base : number) (attempt : Z) (e : exn) (w : World) :
  run (backoff base attempt e) w =
  let w0 := emit (ELog WARNING ("Retrying due to error: " +:+ str e)) w in
  match mul_int base (2 ^ attempt) with
  | inl x => (Raised x, w0)
  | inr scaled =>
      let '(j, w1) := world_random w0 in
      match add_float scaled j with
      | inl x => (Raised x, w1)
      | inr d =>
          match sleep_refuses d with
          | Some x => (Raised x, w1)
          | None => (Returned tt, emit (ESleep d) w1)
          end
      end
  end.
Proof.
  unfold backoff. simpl.
  destruct (mul_int base (2 ^ attempt)) as [x|scaled]; simpl; [reflexivity|].
  destruct (world_random _) as [j w1].
  destruct (add_float scaled j) as [x|d]; simpl; [reflexivity|].
  unfold time_sleep. destruct (sleep_refuses d); reflexivity.
Qed.

Lemma run_wrapper_loop {A : Type} (retries : Z) (base : number) (func : Prog A)
    (attempt : Z) (w : World) :
  run (wrapper_loop retries base func attempt) w =
  if bool_decide (attempt < retries) then
    match run func w with
    | (Returned a, w1) => (Returned a, w1)
    | (Raised e, w1) =>
        if is_transient e then
          match run (backoff base attempt e) w1 with
          | (Returned _, w2) => run (wrapper_loop retries base func (attempt + 1)) w2
          | (Raised x, w2) => (Raised x, w2)
          end
        else (Raised e, w1)
    end
  else (Raised (PyException ("Failed after " +:+ pretty retries +:+ " retries")), w).
Proof.
  rewrite wrapper_loop_eq. case_bool_decide; [|reflexivity].
  rewrite run_try_except.
  destruct (run func w) as [[a|e] w1]; [reflexivity|].
  destruct (is_transient e); [|reflexivity].
  rewrite run_bind.
  destruct (run (backoff base attempt e) w1) as [[[]|x] w2]; reflexivity.
Qed.

(** ** One invocation of [process_bucket] *)

Lemma process_bucket_body_leaves (G : exn -> Prop) (project_id bucket_name : string) :
  leaves G (reports project_id bucket_name) (fun e => is_GoogleAPIError e = false /\ G e)
    (process_bucket_body project_id bucket_name).
Proof.
  assert (Hrow : forall bp s, valid_status s = true ->
            reports project_id bucket_name (response_row project_id bucket_name bp s)).
  { intros bp s Hs. split; [reflexivity|]. exists s. split; [reflexivity|assumption]. }
  unfold process_bucket_body.
  apply leaves_try_except with (E' := G).
  - simpl. intros [e|c] Hc; simpl; [auto|].
    intros [e|bk] Hb; simpl; [auto|].
    destruct bk as [n [sc l lt [|] t rp]]; simpl.
    + case_bool_decide; simpl.
      * apply (Hrow (mkProps sc l lt _ t rp) "Skipped"). reflexivity.
      * intros [e|[]] He; simpl; [auto|].
        apply (Hrow (mkProps sc l lt _ t rp) "Migrated"). reflexivity.
    + case_bool_decide; simpl;
        (intros [e|[]] He; simpl; [auto|];
         apply (Hrow (mkProps sc l lt _ t rp) "Migrated"); reflexivity).
  - intros e He. destruct (is_GoogleAPIError e) eqn:Hapi; [|auto].
    simpl. split; [reflexivity|]. eexists. split; reflexivity.
Qed.

Lemma process_bucket_eq (project_id bucket_name : string) :
  process_bucket project_id bucket_name =
  try_except (process_bucket_body project_id bucket_name) is_transient
    (fun e => backoff (PyInt 1) 0 e;;
              wrapper_loop 5 (PyInt 1) (process_bucket_body project_id bucket_name) 1).
Proof.
  unfold process_bucket, retry_with_backoff, wrapper.
  rewrite wrapper_loop_eq. reflexivity.
Qed.

Lemma process_bucket_leaves (G : exn -> Prop) (project_id bucket_name : string) :
  leaves G (reports project_id bucket_name) (fun e => is_GoogleAPIError e = false /\ G e)
    (process_bucket project_id bucket_name).
Proof.
  rewrite process_bucket_eq.
  eapply leaves_try_except; [apply process_bucket_body_leaves|].
  intros e [He HG]. destruct e; simpl in *; try discriminate; auto.
Qed.

(** The decorated function does what its body does: no exception of the
    body reaches the [except] clause of the decorator, because the body
    catches the whole [GoogleAPIError] hierarchy itself. *)
Lemma run_process_bucket (project_id bucket_name : string) (w : World) :
  run (process_bucket project_id bucket_name) w
  = run (process_bucket_body project_id bucket_name) w.
Proof.
  rewrite process_bucket_eq, run_try_except.
  destruct (leaves_run (fun _ => True) (fun _ => I) _ _ _ w
              ltac:(apply Forall_forall; auto)
              (process_bucket_body_leaves (fun _ => True) project_id bucket_name))
    as [H _].
  destruct (run (process_bucket_body project_id bucket_name) w) as [[r|e] w'];
    simpl in *; [reflexivity|].
  destruct H as [H _]. destruct e; simpl in *; try discriminate; reflexivity.
Qed.

Lemma corrected_spec (bucket : Bucket) :
  name (corrected bucket) = name bucket
  /\ autoclass_enabled (props (corrected bucket)) = true
  /\ autoclass_terminal_storage_class (props (corrected bucket)) = Some "ARCHIVE"
  /\ storage_class (props (corrected bucket)) = storage_class (props bucket)
  /\ location (props (corrected bucket)) = location (props bucket)
  /\ location_type (props (corrected bucket)) = location_type (props bucket)
  /\ requester_pays (props (corrected bucket)) = requester_pays (props bucket).
Proof.
  unfold corrected.
  destruct bucket as [n [sc l lt en t rp]]; simpl.
  destruct en; simpl; case_bool_decide; simpl; subst; repeat split; reflexivity.
Qed.

(** What one run of the body does, by cases on the fetch and on the patch. *)
Lemma run_process_bucket_body (project_id bucket_name : string) (w : World) :
  run (process_bucket_body project_id bucket_name) w =
  match fetch project_id bucket_name w with
  | (inl e, w1) => on_exception project_id bucket_name e w1
  | (inr bucket, w1) =>
      if autoclass_enabled (props bucket)
         && bool_decide (autoclass_terminal_storage_class (props bucket) = Some "ARCHIVE")
      then
        (Returned (response_row project_id bucket_name (props bucket) "Skipped"),
         emit (ELog INFO ("Skipped bucket '" +:+ bucket_name +:+ "' in project '"
                          +:+ project_id +:+ "': already in Autoclass/ARCHIVE.")) w1)
      else
        match world_patch (corrected bucket) (announced project_id bucket_name bucket w1) with
        | (inr _, w2) =>
            (Returned (response_row project_id bucket_name (props bucket) "Migrated"), w2)
        | (inl e, w2) => on_exception project_id bucket_name e w2
        end
  end.
Proof.
  unfold process_bucket_body, fetch, on_exception.
  rewrite run_try_except. simpl.
  destruct (world_client project_id w) as [[e|c] w0]; simpl; [reflexivity|].
  destruct (world_get_bucket c bucket_name w0) as [[e|bucket] w1]; simpl; [reflexivity|].
  unfold corrected, announced.
  destruct bucket as [n [sc l lt [|] t rp]]; simpl.
  - case_bool_decide as Ht; simpl; [reflexivity|].
    destruct (world_patch _ _) as [[e|[]] w2]; reflexivity.
  - case_bool_decide as Ht; simpl;
      destruct (world_patch _ _) as [[e|[]] w2]; reflexivity.
Qed.

(** ** The calls of one invocation *)

Lemma patches_app t1 t2 : patches (t1 ++ t2) = patches t1 ++ patches t2.
Proof. apply omap_app. Qed.
Lemma sleeps_app t1 t2 : sleeps (t1 ++ t2) = sleeps t1 ++ sleeps t2.
Proof. apply omap_app. Qed.
Lemma gets_app t1 t2 : gets (t1 ++ t2) = gets t1 ++ gets t2.
Proof. apply omap_app. Qed.

Lemma next_fault_spec (w : World) :
  remote (next_fault w).2 = remote w
  /\ trace (next_fault w).2 = trace w
  /\ jitter (next_fault w).2 = jitter w
  /\ inputs (next_fault w).2 = inputs w
  /\ outputs (next_fault w).2 = outputs w
  /\ faults (next_fault w).2 = tail (faults w)
  /\ (next_fault w).1 = default None (head (faults w)).
Proof.
  unfold next_fault. destruct (faults w) eqn:Hf; simpl; rewrite ?Hf; auto 10.
Qed.

Lemma fetch_spec (p b : string) (w : World) :
  remote (fetch p b w).2 = remote w
  /\ inputs (fetch p b w).2 = inputs w
  /\ outputs (fetch p b w).2 = outputs w
  /\ jitter (fetch p b w).2 = jitter w
  /\ (exists evs, trace (fetch p b w).2 = trace w ++ evs
                  /\ patches evs = [] /\ sleeps evs = []
                  /\ (gets evs = [] \/ gets evs = [(p, b)]))
  /\ forall bucket, (fetch p b w).1 = inr bucket ->
       name bucket = b /\ remote w !! b = Some (props bucket)
       /\ faults (fetch p b w).2 = tail (tail (faults w)).
Proof.
  unfold fetch, world_client.
  destruct (next_fault_spec (emit (EClient p) w)) as (R1 & T1 & J1 & I1 & O1 & F1 & H1).
  destruct (next_fault (emit (EClient p) w)) as [[e|] w0]; simpl in *.
  { split_and!; try assumption; try discriminate.
    exists [EClient p]. rewrite T1. auto. }
  unfold world_get_bucket. simpl.
  destruct (next_fault_spec (emit (EGetBucket p b) w0)) as (R2 & T2 & J2 & I2 & O2 & F2 & H2).
  assert (HT : trace (next_fault (emit (EGetBucket p b) w0)).2
               = trace w ++ [EClient p; EGetBucket p b]).
  { rewrite T2. simpl. rewrite T1, <- app_assoc. reflexivity. }
  destruct (next_fault (emit (EGetBucket p b) w0)) as [[e|] w1]; simpl in *.
  { split_and!; try congruence; try discriminate. eexists; split; [exact HT|auto]. }
  destruct (remote w1 !! b) as [bp|] eqn:Hb; simpl.
  - split_and!; try congruence.
    + eexists; split; [exact HT|auto].
    + intros bucket [= <-]. simpl. split_and!; congruence.
  - split_and!; try congruence; try discriminate. eexists; split; [exact HT|auto].
Qed.

Lemma announced_spec (p b : string) (bucket : Bucket) (w : World) :
  remote (announced p b bucket w) = remote w
  /\ faults (announced p b bucket w) = faults w
  /\ inputs (announced p b bucket w) = inputs w
  /\ outputs (announced p b bucket w) = outputs w
  /\ exists evs, trace (announced p b bucket w) = trace w ++ evs
                 /\ patches evs = [] /\ sleeps evs = [] /\ gets evs = [].
Proof.
  unfold announced.
  destruct (negb (autoclass_enabled (props bucket)));
    destruct (negb (bool_decide _)); simpl; split_and!; try reflexivity;
    first [ by (exists []; rewrite app_nil_r)
          | by (eexists; rewrite <- ?app_assoc; split; [reflexivity | auto]) ].
Qed.

Lemma world_patch_spec (b : Bucket) (w : World) :
  trace (world_patch b w).2 = trace w ++ [EPatch b]
  /\ inputs (world_patch b w).2 = inputs w
  /\ outputs (world_patch b w).2 = outputs w
  /\ faults (world_patch b w).2 = tail (faults w)
  /\ match (world_patch b w).1 with
     | inr _ => remote (world_patch b w).2 = <[name b := props b]> (remote w)
     | inl e => remote (world_patch b w).2 = remote w
     end
  /\ (default None (head (faults w)) = None -> is_Some (remote w !! name b) ->
      exists u, (world_patch b w).1 = inr u).
Proof.
  unfold world_patch.
  destruct (next_fault_spec (emit (EPatch b) w)) as (R1 & T1 & J1 & I1 & O1 & F1 & H1).
  destruct (next_fault (emit (EPatch b) w)) as [[e|] w0]; simpl in *.
  - split_and!; congruence.
  - rewrite R1. destruct (remote w !! name b) as [bp|] eqn:Hb; simpl.
    + split_and!; try congruence. intros _ _. eauto.
    + split_and!; try congruence. intros _ [x Hx]. discriminate.
Qed.

Lemma on_exception_spec (p b : string) (e : exn) (w : World) :
  remote (on_exception p b e w).2 = remote w
  /\ inputs (on_exception p b e w).2 = inputs w
  /\ outputs (on_exception p b e w).2 = outputs w
  /\ faults (on_exception p b e w).2 = faults w
  /\ exists evs, trace (on_exception p b e w).2 = trace w ++ evs
                 /\ patches evs = [] /\ sleeps evs = [] /\ gets evs = [].
Proof.
  unfold on_exception. destruct (is_GoogleAPIError e); simpl; split_and!;
    try reflexivity;
    first [ by (exists []; rewrite app_nil_r)
          | by (eexists; split; [reflexivity | auto]) ].
Qed.

(** An invocation of [process_bucket] fetches at most once, never sleeps
    and calls [patch] at most once. *)
Lemma process_bucket_calls (p b : string) (w : World) :
  exists evs,
    trace (run (process_bucket p b) w).2 = trace w ++ evs
    /\ sleeps evs = []
    /\ (gets evs = [] \/ gets evs = [(p, b)])
    /\ (patches evs = [] \/ exists patched, patches evs = [patched]).
Proof.
  rewrite run_process_bucket, run_process_bucket_body.
  destruct (fetch_spec p b w) as (_ & _ & _ & _ & (ev1 & T1 & P1 & S1 & G1) & _).
  destruct (fetch p b w) as [[e|bucket] w1]; simpl in *.
  - destruct (on_exception_spec p b e w1) as (_ & _ & _ & _ & ev2 & T2 & P2 & S2 & G2).
    exists (ev1 ++ ev2). rewrite T2, T1, <- app_assoc.
    rewrite sleeps_app, gets_app, patches_app, P1, P2, S1, S2, G2.
    rewrite ?app_nil_r; simpl; split_and!; eauto.
  - destruct (_ && _); simpl.
    + exists (ev1 ++ [ELog INFO ("Skipped bucket '" +:+ b +:+ "' in project '"
                                  +:+ p +:+ "': already in Autoclass/ARCHIVE.")]).
      rewrite T1, <- app_assoc.
      rewrite sleeps_app, gets_app, patches_app, P1, S1.
      rewrite ?app_nil_r; simpl; split_and!; eauto.
    + destruct (announced_spec p b bucket w1) as (_ & _ & _ & _ & ev2 & T2 & P2 & S2 & G2).
      destruct (world_patch_spec (corrected bucket) (announced p b bucket w1))
        as (T3 & _).
      destruct (world_patch _ _) as [[e|u] w2]; simpl in *.
      * destruct (on_exception_spec p b e w2) as (_ & _ & _ & _ & ev4 & T4 & P4 & S4 & G4).
        exists (ev1 ++ ev2 ++ [EPatch (corrected bucket)] ++ ev4).
        rewrite T4, T3, T2, T1, <- !app_assoc.
        rewrite !sleeps_app, !gets_app, !patches_app, P1, P2, P4, S1, S2, S4, G2, G4.
        rewrite ?app_nil_r; simpl; split_and!; eauto.
      * exists (ev1 ++ ev2 ++ [EPatch (corrected bucket)]).
        rewrite T3, T2, T1, <- !app_assoc.
        rewrite !sleeps_app, !gets_app, !patches_app, P1, P2, S1, S2, G2.
        rewrite ?app_nil_r; simpl; split_and!; eauto.
Qed.

(** ** The rows *)

Lemma response_row_fields (p b : string) (bp : BucketProps) (s : string) :
  let r := response_row p b bp s in
  r !! "project_id" = Some (VStr p)
  /\ r !! "bucket_name" = Some (VStr b)
  /\ r !! "storage_class" = Some (of_attr (storage_class bp))
  /\ r !! "location" = Some (of_attr (location bp))
  /\ r !! "location_type" = Some (of_attr (location_type bp))
  /\ r !! "autoclass_enabled" = Some (VBool (autoclass_enabled bp))
  /\ r !! "autoclass_terminal_storage_class"
     = Some (of_attr (autoclass_terminal_storage_class bp))
  /\ r !! "requester_pays" = Some (VBool (requester_pays bp))
  /\ r !! "migration_status" = Some (VStr s).
Proof. split_and!; reflexivity. Qed.

Lemma error_row_fields (p b : string) (e : exn) :
  let r := error_row p b e in
  r !! "project_id" = Some (VStr p)
  /\ r !! "bucket_name" = Some (VStr b)
  /\ r !! "storage_class" = Some (VStr "")
  /\ r !! "location" = Some (VStr "")
  /\ r !! "location_type" = Some (VStr "")
  /\ r !! "autoclass_enabled" = Some (VBool false)
  /\ r !! "autoclass_terminal_storage_class" = Some (VStr "")
  /\ r !! "requester_pays" = Some (VBool false)
  /\ r !! "migration_status" = Some (VStr ("Error: " +:+ str e)).
Proof. split_and!; reflexivity. Qed.

(** ** Claims on one invocation *)

(** C4. When the fetched bucket already has Autoclass enabled with terminal
    storage class ARCHIVE, [process_bucket] returns a row with status
    "Skipped", calls [patch] not at all (the remote service is left as it
    was), and the six snapshot fields of the row are the fetched ones. *)
Theorem already_migrated_is_skipped (p b : string) (w w1 : World) (bucket : Bucket) :
  fetch p b w = (inr bucket, w1) ->
  autoclass_enabled (props bucket) = true ->
  autoclass_terminal_storage_class (props bucket) = Some "ARCHIVE" ->
  exists r w',
    run (process_bucket p b) w = (Returned r, w')
    /\ r !! "migration_status" = Some (VStr "Skipped")
    /\ patches (trace w') = patches (trace w)
    /\ remote w' = remote w
    /\ remote w !! b = Some (props bucket)
    /\ r !! "project_id" = Some (VStr p)
    /\ r !! "bucket_name" = Some (VStr b)
    /\ r !! "storage_class" = Some (of_attr (storage_class (props bucket)))
    /\ r !! "location" = Some (of_attr (location (props bucket)))
    /\ r !! "location_type" = Some (of_attr (location_type (props bucket)))
    /\ r !! "autoclass_enabled" = Some (VBool (autoclass_enabled (props bucket)))
    /\ r !! "autoclass_terminal_storage_class"
       = Some (of_attr (autoclass_terminal_storage_class (props bucket)))
    /\ r !! "requester_pays" = Some (VBool (requester_pays (props bucket))).
Proof.
  intros Hf Hen Ht.
  exists (response_row p b (props bucket) "Skipped").
  destruct (response_row_fields p b (props bucket) "Skipped")
    as (F1 & F2 & F3 & F4 & F5 & F6 & F7 & F8 & F9).
  rewrite run_process_bucket, run_process_bucket_body.
  destruct (fetch_spec p b w) as (R1 & _ & _ & _ & (ev1 & T1 & P1 & _) & Hb).
  rewrite Hf in *. simpl in *. destruct (Hb bucket eq_refl) as (_ & Hrem & _).
  replace (autoclass_enabled (props bucket)
           && bool_decide (autoclass_terminal_storage_class (props bucket) = Some "ARCHIVE"))
    with true by (rewrite Hen, bool_decide_eq_true_2 by assumption; reflexivity).
  eexists. split; [reflexivity|]. simpl.
  rewrite T1, <- app_assoc, patches_app, patches_app, P1. simpl.
  rewrite app_nil_r.
  split_and!; first [assumption | reflexivity].
Qed.

Lemma already_migrated_is_skipped_witness :
  exists r w',
    run (process_bucket "p2" "b2") (sample_world sample_buckets []) = (Returned r, w')
    /\ r !! "migration_status" = Some (VStr "Skipped")
    /\ patches (trace w') = []
    /\ r !! "autoclass_enabled" = Some (VBool true)
    /\ r !! "autoclass_terminal_storage_class" = Some (VStr "ARCHIVE").
Proof.
  destruct (already_migrated_is_skipped "p2" "b2" (sample_world sample_buckets [])
              (fetch "p2" "b2" (sample_world sample_buckets [])).2
              (mkBucket "b2" (sample_props true (Some "ARCHIVE"))))
    as (r & w' & H); [reflexivity..|].
  exists r, w'. destruct H as (H1 & H2 & H3 & _ & _ & _ & _ & _ & _ & _ & H4 & H5 & _).
  split_and!; first [assumption | reflexivity].
Defined.

Lemma fetch_succeeds (p b : string) (w : World) (bp : BucketProps) :
  remote w !! b = Some bp ->
  default None (head (faults w)) = None ->
  default None (head (tail (faults w))) = None ->
  (fetch p b w).1 = inr (mkBucket b bp).
Proof.
  intros Hb H1 H2. unfold fetch, world_client.
  destruct (next_fault_spec (emit (EClient p) w)) as (R1 & _ & _ & _ & _ & F1 & N1).
  destruct (next_fault (emit (EClient p) w)) as [f1 w0]; simpl in *.
  rewrite H1 in N1. subst f1. unfold world_get_bucket. simpl.
  destruct (next_fault_spec (emit (EGetBucket p b) w0)) as (R2 & _ & _ & _ & _ & F2 & N2).
  destruct (next_fault (emit (EGetBucket p b) w0)) as [f2 w1]; simpl in *.
  rewrite F1, H2 in N2. subst f2.
  rewrite R2, R1, Hb. reflexivity.
Qed.

(** The patch of a bucket that was fetched goes through when the service
    schedules no fault for it. *)
Lemma run_process_bucket_migrated (p b : string) (w w1 : World) (bucket : Bucket) :
  fetch p b w = (inr bucket, w1) ->
  autoclass_enabled (props bucket)
    && bool_decide (autoclass_terminal_storage_class (props bucket) = Some "ARCHIVE") = false ->
  default None (head (faults w1)) = None ->
  exists w',
    run (process_bucket p b) w
    = (Returned (response_row p b (props bucket) "Migrated"), w')
    /\ remote w' = <[b := props (corrected bucket)]> (remote w)
    /\ patches (trace w') = patches (trace w) ++ [corrected bucket]
    /\ faults w' = tail (faults w1).
Proof.
  intros Hf Hc Hnf.
  rewrite run_process_bucket, run_process_bucket_body.
  destruct (fetch_spec p b w) as (R1 & _ & _ & _ & (ev1 & T1 & P1 & _) & Hb).
  rewrite Hf in *. simpl in *. destruct (Hb bucket eq_refl) as (Hn & Hrem & _).
  rewrite Hc.
  destruct (announced_spec p b bucket w1) as (R2 & F2 & _ & _ & ev2 & T2 & P2 & _).
  destruct (corrected_spec bucket) as (Hcn & _).
  destruct (world_patch_spec (corrected bucket) (announced p b bucket w1))
    as (T3 & _ & _ & F3 & R3 & Hok).
  destruct Hok as [u Hu].
  { rewrite F2. assumption. }
  { rewrite R2, R1, Hcn, Hn, Hrem. eauto. }
  destruct (world_patch _ _) as [[e|u'] w2]; simpl in *; [discriminate|].
  exists w2. split; [reflexivity|].
  rewrite R3, R2, R1, Hcn, Hn, T3, T2, T1, F3, F2.
  rewrite <- !app_assoc, !patches_app, P1, P2. auto.
Qed.

(** C2 (as the code has it). When the fetched bucket has Autoclass
    disabled and the patch goes through, the row has status "Migrated", and
    its [autoclass_enabled] and [autoclass_terminal_storage_class] are the
    values fetched before the correction ([false], and the terminal class as
    fetched); the corrected values are the ones the remote bucket has
    afterwards. *)
Theorem migrated_row_reports_fetched_state (p b : string) (w w1 : World) (bucket : Bucket) :
  fetch p b w = (inr bucket, w1) ->
  autoclass_enabled (props bucket) = false ->
  default None (head (faults w1)) = None ->
  exists r w',
    run (process_bucket p b) w = (Returned r, w')
    /\ r !! "migration_status" = Some (VStr "Migrated")
    /\ r !! "autoclass_enabled" = Some (VBool false)
    /\ r !! "autoclass_terminal_storage_class"
       = Some (of_attr (autoclass_terminal_storage_class (props bucket)))
    /\ exists bp, remote w' !! b = Some bp
                  /\ autoclass_enabled bp = true
                  /\ autoclass_terminal_storage_class bp = Some "ARCHIVE".
Proof.
  intros Hf Hen Hnf.
  destruct (run_process_bucket_migrated p b w w1 bucket Hf) as (w' & Hr & Hrem & _).
  { rewrite Hen. reflexivity. }
  { assumption. }
  destruct (response_row_fields p b (props bucket) "Migrated")
    as (_ & _ & _ & _ & _ & F6 & F7 & _ & F9).
  destruct (corrected_spec bucket) as (_ & C1 & C2 & _).
  exists (response_row p b (props bucket) "Migrated"), w'.
  split_and!; try assumption.
  - rewrite Hen in F6. assumption.
  - exists (props (corrected bucket)). rewrite Hrem, lookup_insert_eq. auto.
Qed.

Lemma migrated_row_reports_fetched_state_witness :
  exists r w',
    run (process_bucket "p1" "b1") (sample_world sample_buckets []) = (Returned r, w')
    /\ r !! "migration_status" = Some (VStr "Migrated")
    /\ r !! "autoclass_enabled" = Some (VBool false)
    /\ r !! "autoclass_terminal_storage_class" = Some VNone.
Proof.
  destruct (migrated_row_reports_fetched_state "p1" "b1" (sample_world sample_buckets [])
              (fetch "p1" "b1" (sample_world sample_buckets [])).2
              (mkBucket "b1" (sample_props false None)))
    as (r & w' & H1 & H2 & H3 & H4 & _); [reflexivity..|].
  exists r, w'. split_and!; assumption.
Defined.

(** C2 as stated fails: bucket [b1] has Autoclass disabled, the row returned
    for it has status "Migrated" but neither [autoclass_enabled = True] nor
    [autoclass_terminal_storage_class = "ARCHIVE"]. *)
Lemma migrated_row_is_not_corrected :
  (exists bp, remote (sample_world sample_buckets []) !! "b1" = Some bp
              /\ autoclass_enabled bp = false)
  /\ exists r w',
      run (process_bucket "p1" "b1") (sample_world sample_buckets []) = (Returned r, w')
      /\ r !! "migration_status" = Some (VStr "Migrated")
      /\ r !! "autoclass_enabled" <> Some (VBool true)
      /\ r !! "autoclass_terminal_storage_class" <> Some (VStr "ARCHIVE").
Proof.
  split.
  - exists (sample_props false None). split; reflexivity.
  - rewrite run_process_bucket, run_process_bucket_body.
    eexists _, _. split; [reflexivity|].
    split_and!; [reflexivity | discriminate | discriminate].
Qed.

(** C5. When the fetched bucket has Autoclass disabled or a terminal storage
    class other than ARCHIVE, [process_bucket] calls [patch] exactly once, on
    a bucket object that has Autoclass enabled and terminal storage class
    ARCHIVE (and is otherwise as fetched); when that call goes through, the
    row has status "Migrated" and the remote bucket holds the patched
    properties.  Whatever happens, an invocation calls [patch] at most
    once. *)
Theorem needed_migration_patches_once :
  (forall (p b : string) (w w1 : World) (bucket : Bucket),
      fetch p b w = (inr bucket, w1) ->
      autoclass_enabled (props bucket) = false
      \/ autoclass_terminal_storage_class (props bucket) <> Some "ARCHIVE" ->
      exists patched o w',
        run (process_bucket p b) w = (o, w')
        /\ patches (trace w') = patches (trace w) ++ [patched]
        /\ patched = corrected bucket
        /\ name patched = b
        /\ autoclass_enabled (props patched) = true
        /\ autoclass_terminal_storage_class (props patched) = Some "ARCHIVE"
        /\ (default None (head (faults w1)) = None ->
            exists r, o = Returned r
                      /\ r !! "migration_status" = Some (VStr "Migrated")
                      /\ remote w' !! b = Some (props patched)))
  /\ (forall (p b : string) (w : World),
         exists ps, patches (trace (run (process_bucket p b) w).2) = patches (trace w) ++ ps
                    /\ (length ps <= 1)%nat).
Proof.
  split.
  - intros p b w w1 bucket Hf Hneed.
    assert (Hc : autoclass_enabled (props bucket)
                 && bool_decide (autoclass_terminal_storage_class (props bucket)
                                 = Some "ARCHIVE") = false).
    { destruct Hneed as [-> | Hne]; [reflexivity|].
      rewrite bool_decide_eq_false_2 by assumption. apply andb_false_r. }
    destruct (corrected_spec bucket) as (Hcn & C1 & C2 & _).
    destruct (fetch_spec p b w) as (R1 & _ & _ & _ & (ev1 & T1 & P1 & _) & Hb).
    rewrite Hf in *. simpl in *. destruct (Hb bucket eq_refl) as (Hn & Hrem & _).
    exists (corrected bucket).
    destruct (run (process_bucket p b) w) as [o w'] eqn:Hrun.
    exists o, w'. split; [reflexivity|].
    split_and!; try reflexivity; try congruence.
    + rewrite run_process_bucket, run_process_bucket_body, Hf, Hc in Hrun.
      destruct (announced_spec p b bucket w1) as (_ & _ & _ & _ & ev2 & T2 & P2 & _).
      destruct (world_patch_spec (corrected bucket) (announced p b bucket w1)) as (T3 & _).
      destruct (world_patch _ _) as [[e|u] w2]; simpl in *.
      * destruct (on_exception_spec p b e w2) as (_ & _ & _ & _ & ev4 & T4 & P4 & _).
        rewrite Hrun in T4. simpl in T4.
        rewrite T4, T3, T2, T1, <- !app_assoc, !patches_app, P1, P2, P4.
        reflexivity.
      * injection Hrun as <- <-.
        rewrite T3, T2, T1, <- !app_assoc, !patches_app, P1, P2. reflexivity.
    + intros Hnf.
      destruct (run_process_bucket_migrated p b w w1 bucket Hf Hc Hnf)
        as (w'' & Hr & Hrem' & _).
      rewrite Hrun in Hr. injection Hr as -> ->.
      eexists. split; [reflexivity|]. split; [reflexivity|].
      rewrite Hrem', lookup_insert_eq. reflexivity.
  - intros p b w.
    destruct (process_bucket_calls p b w) as (evs & T & _ & _ & [P | [x P]]).
    + exists []. rewrite T, patches_app, P. simpl. auto.
    + exists [x]. rewrite T, patches_app, P. simpl. auto.
Qed.

Lemma needed_migration_patches_once_witness :
  exists patched o w',
    run (process_bucket "p3" "b3") (sample_world sample_buckets []) = (o, w')
    /\ patches (trace w') = [patched]
    /\ autoclass_terminal_storage_class (props patched) = Some "ARCHIVE"
    /\ exists r, o = Returned r /\ r !! "migration_status" = Some (VStr "Migrated").
Proof.
  destruct (proj1 needed_migration_patches_once "p3" "b3" (sample_world sample_buckets [])
              (fetch "p3" "b3" (sample_world sample_buckets [])).2
              (mkBucket "b3" (sample_props true (Some "NEARLINE"))))
    as (patched & o & w' & H1 & H2 & _ & _ & _ & H3 & H4);
    [reflexivity | right; discriminate |].
  destruct (H4 eq_refl) as (r & Hr & Hs & _).
  exists patched, o, w'. split_and!; eauto.
Defined.

Lemma run_process_bucket_skipped (p b : string) (w w1 : World) (bucket : Bucket) :
  fetch p b w = (inr bucket, w1) ->
  autoclass_enabled (props bucket) = true ->
  autoclass_terminal_storage_class (props bucket) = Some "ARCHIVE" ->
  run (process_bucket p b) w
  = (Returned (response_row p b (props bucket) "Skipped"),
     emit (ELog INFO ("Skipped bucket '" +:+ b +:+ "' in project '"
                      +:+ p +:+ "': already in Autoclass/ARCHIVE.")) w1).
Proof.
  intros Hf Hen Ht.
  rewrite run_process_bucket, run_process_bucket_body, Hf.
  replace (autoclass_enabled (props bucket)
           && bool_decide (autoclass_terminal_storage_class (props bucket) = Some "ARCHIVE"))
    with true by (rewrite Hen, bool_decide_eq_true_2 by assumption; reflexivity).
  reflexivity.
Qed.

(** C7. Two runs of [process_bucket] in a row on a bucket that needs the
    migration, with no call failing: the first returns "Migrated", the
    second "Skipped", and the second neither calls [patch] nor changes the
    remote service.  On a bucket that is already migrated no invocation ever
    calls [patch], and it returns "Skipped" whenever its fetch succeeds. *)
Theorem process_bucket_idempotent :
  (forall (p b : string) (w : World) (bp : BucketProps),
      remote w !! b = Some bp ->
      autoclass_enabled bp = false
      \/ autoclass_terminal_storage_class bp <> Some "ARCHIVE" ->
      calm w ->
      exists r1 w1 r2 w2,
        run (process_bucket p b) w = (Returned r1, w1)
        /\ run (process_bucket p b) w1 = (Returned r2, w2)
        /\ r1 !! "migration_status" = Some (VStr "Migrated")
        /\ r2 !! "migration_status" = Some (VStr "Skipped")
        /\ patches (trace w2) = patches (trace w1)
        /\ remote w2 = remote w1)
  /\ (forall (p b : string) (w : World) (bp : BucketProps),
         remote w !! b = Some bp ->
         autoclass_enabled bp = true ->
         autoclass_terminal_storage_class bp = Some "ARCHIVE" ->
         patches (trace (run (process_bucket p b) w).2) = patches (trace w)
         /\ remote (run (process_bucket p b) w).2 = remote w
         /\ forall bucket w1, fetch p b w = (inr bucket, w1) ->
              exists r, (run (process_bucket p b) w).1 = Returned r
                        /\ r !! "migration_status" = Some (VStr "Skipped")).
Proof.
  split.
  - intros p b w bp Hb Hneed Hcalm.
    assert (Hh : forall l : list (option exn),
               Forall (fun f => f = None) l -> default None (head l) = None).
    { intros l Hl. destruct Hl; simpl; auto. }
    assert (Ht : forall l : list (option exn),
               Forall (fun f => f = None) l -> Forall (fun f => f = None) (tail l)).
    { intros l Hl. destruct Hl; simpl; auto. }
    unfold calm in Hcalm.
    (* first run *)
    pose proof (fetch_succeeds p b w bp Hb (Hh _ Hcalm) (Hh _ (Ht _ Hcalm))) as Hf.
    destruct (fetch_spec p b w) as (_ & _ & _ & _ & _ & Hfs).
    destruct (fetch p b w) as [rf wf] eqn:Hfetch. simpl in Hf. subst rf.
    destruct (Hfs _ eq_refl) as (_ & _ & Hfl). simpl in Hfl.
    assert (Hcalm1 : Forall (fun f => f = None) (faults wf)).
    { rewrite Hfl. auto. }
    destruct (run_process_bucket_migrated p b w wf _ Hfetch) as (w1 & Hr1 & Hrem1 & _ & Hfl1).
    { simpl. destruct Hneed as [-> | Hne]; [reflexivity|].
      rewrite bool_decide_eq_false_2 by assumption. apply andb_false_r. }
    { auto. }
    assert (Hcalm2 : Forall (fun f => f = None) (faults w1)).
    { rewrite Hfl1. auto. }
    (* second run *)
    destruct (corrected_spec (mkBucket b bp)) as (_ & C1 & C2 & _).
    assert (Hb1 : remote w1 !! b = Some (props (corrected (mkBucket b bp)))).
    { rewrite Hrem1, lookup_insert_eq. reflexivity. }
    pose proof (fetch_succeeds p b w1 _ Hb1 (Hh _ Hcalm2) (Hh _ (Ht _ Hcalm2))) as Hf2.
    destruct (fetch p b w1) as [rf2 wf2] eqn:Hfetch2. simpl in Hf2. subst rf2.
    pose proof (run_process_bucket_skipped p b w1 wf2 _ Hfetch2 C1 C2) as Hr2.
    destruct (fetch_spec p b w1) as (R2 & _ & _ & _ & (ev2 & T2 & P2 & _) & _).
    rewrite Hfetch2 in *. simpl in *.
    eexists _, w1, _, _. split_and!; [exact Hr1 | exact Hr2 | reflexivity | reflexivity | | ].
    + simpl. rewrite T2, <- app_assoc, !patches_app, P2. simpl.
      rewrite !app_nil_r. reflexivity.
    + simpl. assumption.
  - intros p b w bp Hb Hen Hterm.
    rewrite run_process_bucket, run_process_bucket_body.
    destruct (fetch_spec p b w) as (R1 & _ & _ & _ & (ev1 & T1 & P1 & _) & Hfs).
    destruct (fetch p b w) as [[e|bucket] wf] eqn:Hfetch; simpl in *.
    + destruct (on_exception_spec p b e wf) as (R2 & _ & _ & _ & ev2 & T2 & P2 & _).
      split_and!.
      * rewrite T2, T1, <- app_assoc, !patches_app, P1, P2, !app_nil_r. reflexivity.
      * congruence.
      * intros ? ? [=].
    + destruct (Hfs _ eq_refl) as (_ & Hrem & _).
      assert (props bucket = bp) as -> by congruence.
      rewrite Hen, bool_decide_eq_true_2 by assumption. simpl.
      split_and!.
      * rewrite T1, <- app_assoc, !patches_app, P1. simpl.
        rewrite !app_nil_r. reflexivity.
      * assumption.
      * intros _ _ _. eexists. split; reflexivity.
Qed.

Lemma process_bucket_idempotent_witness :
  exists r1 w1 r2 w2,
    run (process_bucket "p1" "b1") (sample_world sample_buckets []) = (Returned r1, w1)
    /\ run (process_bucket "p1" "b1") w1 = (Returned r2, w2)
    /\ r1 !! "migration_status" = Some (VStr "Migrated")
    /\ r2 !! "migration_status" = Some (VStr "Skipped")
    /\ patches (trace w2) = patches (trace w1).
Proof.
  assert (Hb : remote (sample_world sample_buckets []) !! "b1"
               = Some (sample_props false None)) by reflexivity.
  assert (Hcalm : calm (sample_world sample_buckets [])) by constructor.
  destruct (proj1 process_bucket_idempotent "p1" "b1" (sample_world sample_buckets [])
              (sample_props false None) Hb (or_introl eq_refl) Hcalm)
    as (r1 & w1 & r2 & w2 & H1 & H2 & H3 & H4 & H5 & _).
  exists r1, w1, r2, w2. split_and!; assumption.
Defined.

(** C1 on the code.  [get_bucket] is rate-limited: [TooManyRequests] is a
    [GoogleAPIError], so the [except GoogleAPIError] block of the body turns
    it into an error row before the decorator can see it.  With the service
    rate-limiting the first three fetches and answering afterwards,
    [process_bucket] fetches once, does not sleep, does not patch and
    returns the status "Error: 429 Too Many Requests"; the faults scheduled
    for the later attempts are never consumed.  The result of the success
    path would have been "Migrated". *)
Theorem transient_fetch_error_is_not_retried :
  (exists r w',
      run (process_bucket "p1" "b1") (sample_world sample_buckets thrice_rate_limited)
      = (Returned r, w')
      /\ r !! "migration_status" = Some (VStr "Error: 429 Too Many Requests")
      /\ gets (trace w') = [("p1", "b1")]
      /\ sleeps (trace w') = []
      /\ patches (trace w') = []
      /\ faults w' = drop 2 thrice_rate_limited
      /\ remote w' = remote (sample_world sample_buckets thrice_rate_limited))
  /\ (exists r w',
         run (process_bucket "p1" "b1") (sample_world sample_buckets []) = (Returned r, w')
         /\ r !! "migration_status" = Some (VStr "Migrated")).
Proof.
  split.
  - rewrite run_process_bucket, run_process_bucket_body.
    eexists _, _. split; [reflexivity|]. split_and!; reflexivity.
  - rewrite run_process_bucket, run_process_bucket_body.
    eexists _, _. split; reflexivity.
Qed.

(** ** The decorator on an arbitrary function *)

Lemma wrapper_loop_runs {A : Type} (n : Z) (base : number) (func : Prog A) (m : nat) :
  forall (a : Z) (w : World),
    0 <= a -> Z.of_nat m = n - a ->
    exists (k : nat) (wk : World),
      a + Z.of_nat k <= n
      /\ after_failures base func k a w = Some wk
      /\ ((a + Z.of_nat k < n
           /\ exists o w', run func wk = (o, w')
                           /\ (forall e, o = Raised e -> is_transient e = false)
                           /\ run (wrapper_loop n base func a) w = (o, w'))
          \/ (a + Z.of_nat k < n
              /\ exists e w1 x w',
                   run func wk = (Raised e, w1)
                   /\ is_transient e = true
                   /\ run (backoff base (a + Z.of_nat k) e) w1 = (Raised x, w')
                   /\ run (wrapper_loop n base func a) w = (Raised x, w'))
          \/ (a + Z.of_nat k = n
              /\ run (wrapper_loop n base func a) w
                 = (Raised (PyException ("Failed after " +:+ pretty n +:+ " retries")), wk))).
Proof.
  induction m as [|m IH]; intros a w Ha Hm.
  - exists 0%nat, w. split; [lia|]. split; [reflexivity|]. right. right. split; [lia|].
    rewrite run_wrapper_loop, bool_decide_eq_false_2 by lia. reflexivity.
  - assert (Hlt : a < n) by lia.
    destruct (run func w) as [[x|e] w1] eqn:Hrun.
    + exists 0%nat, w. split; [lia|]. split; [reflexivity|]. left. split; [lia|].
      exists (Returned x), w1. split; [assumption|]. split; [discriminate|].
      rewrite run_wrapper_loop, bool_decide_eq_true_2, Hrun by lia. reflexivity.
    + destruct (is_transient e) eqn:He.
      * destruct (run (backoff base a e) w1) as [[[]|x] w2] eqn:Hb.
        -- destruct (IH (a + 1) w2) as (k & wk & Hk & Haf & Hres); [lia | lia |].
           exists (S k), wk. split; [lia|]. split.
           { cbn [after_failures]. rewrite Hrun, He, Hb. assumption. }
           replace (a + Z.of_nat (S k)) with (a + 1 + Z.of_nat k) by lia.
           rewrite (run_wrapper_loop n base func a), bool_decide_eq_true_2, Hrun, He, Hb
             by lia.
           assumption.
        -- exists 0%nat, w. split; [lia|]. split; [reflexivity|]. right. left.
           split; [lia|]. exists e, w1, x, w2.
           replace (a + Z.of_nat 0) with a by lia.
           split; [assumption|]. split; [assumption|]. split; [assumption|].
           rewrite run_wrapper_loop, bool_decide_eq_true_2, Hrun, He, Hb by lia.
           reflexivity.
      * exists 0%nat, w. split; [lia|]. split; [reflexivity|]. left. split; [lia|].
        exists (Raised e), w1. split; [assumption|]. split; [intros ? [= <-]; assumption|].
        rewrite run_wrapper_loop, bool_decide_eq_true_2, Hrun, He by lia. reflexivity.
Qed.

Lemma sleeps_emit_log (l : level) (m : string) (w : World) :
  sleeps (trace (emit (ELog l m) w)) = sleeps (trace w).
Proof. unfold emit. simpl. rewrite sleeps_app. simpl. apply app_nil_r. Qed.

Lemma world_random_emit (ev : event) (w : World) :
  world_random (emit ev w) = ((world_random w).1, emit ev (world_random w).2).
Proof.
  unfold world_random, emit. simpl.
  destruct (jitter w) eqn:E; simpl; rewrite ?E; reflexivity.
Qed.

Lemma sleeps_world_random (w : World) : sleeps (trace (world_random w).2) = sleeps (trace w).
Proof. unfold world_random. destruct (jitter w); reflexivity. Qed.

(** C10. For [retries = n >= 0] and any function, the decorated function is
    total (it is defined by recursion on [n - attempt]) and behaves as
    follows: some number [k <= n] of invocations in a row raise a transient
    error, each followed by the warning and a backoff that returns; then
    - either [k < n] and invocation [k + 1] does not raise a transient error,
      and its outcome is the outcome of the wrapper (the value it returns is
      returned, an exception that is not transient passes through),
    - or [k < n], invocation [k + 1] raises a transient error and the backoff
      after it raises: that exception leaves the [except] block and is the
      outcome of the wrapper,
    - or [k = n] and the wrapper raises [Exception("Failed after n retries")]
      right after the backoff that followed failure [n].
    So the function is invoked at most [n] times; for [n = 0] it is not
    invoked at all and nothing happens before the exception.  The backoff
    after a transient failure, the last one included, computes the delay
    [backoff_in_seconds * 2 ** attempt + jitter] and passes it to
    [time.sleep]: it raises when the delay cannot be computed
    ([OverflowError]) or [time.sleep] refuses it ([ValueError],
    [OverflowError]), and sleeps once, for the delay, otherwise. *)
Theorem retry_wrapper_bounded {A : Type} (n : Z) (base : number) (func : Prog A)
    (w : World) :
  0 <= n ->
  (exists (k : nat) (wk : World),
      Z.of_nat k <= n
      /\ after_failures base func k 0 w = Some wk
      /\ ((Z.of_nat k < n
           /\ exists o w', run func wk = (o, w')
                           /\ (forall e, o = Raised e -> is_transient e = false)
                           /\ run (retry_with_backoff n base func) w = (o, w'))
          \/ (Z.of_nat k < n
              /\ exists e w1 x w',
                   run func wk = (Raised e, w1)
                   /\ is_transient e = true
                   /\ run (backoff base (Z.of_nat k) e) w1 = (Raised x, w')
                   /\ run (retry_with_backoff n base func) w = (Raised x, w'))
          \/ (Z.of_nat k = n
              /\ run (retry_with_backoff n base func) w
                 = (Raised (PyException ("Failed after " +:+ pretty n +:+ " retries")), wk))))
  /\ (n = 0 ->
      run (retry_with_backoff n base func) w
      = (Raised (PyException "Failed after 0 retries"), w))
  /\ (forall (attempt : Z) (e : exn) (w1 : World),
         let r := run (backoff base attempt e) w1 in
         match sleep_time base attempt (world_random w1).1 with
         | inl x => r.1 = Raised x /\ sleeps (trace r.2) = sleeps (trace w1)
         | inr d =>
             match sleep_refuses d with
             | Some x => r.1 = Raised x /\ sleeps (trace r.2) = sleeps (trace w1)
             | None => r.1 = Returned tt /\ sleeps (trace r.2) = sleeps (trace w1) ++ [d]
             end
         end).
Proof.
  intros Hn. split_and!.
  - destruct (wrapper_loop_runs n base func (Z.to_nat n) 0 w) as (k & wk & Hk & Haf & Hres);
      [lia | lia |].
    exists k, wk. simpl in *. unfold retry_with_backoff, wrapper. auto.
  - intros ->. unfold retry_with_backoff, wrapper.
    rewrite run_wrapper_loop. reflexivity.
  - intros attempt e w1. cbv zeta. rewrite run_backoff. cbv zeta.
    unfold sleep_time.
    destruct (mul_int base (2 ^ attempt)) as [x|scaled].
    { simpl. split; [reflexivity | apply sleeps_emit_log]. }
    rewrite world_random_emit.
    destruct (add_float scaled (world_random w1).1) as [x|d].
    { simpl. split; [reflexivity|].
      unfold emit. simpl. rewrite sleeps_app, sleeps_world_random. apply app_nil_r. }
    destruct (sleep_refuses d) as [x|].
    + simpl. split; [reflexivity|].
      unfold emit. simpl. rewrite sleeps_app, sleeps_world_random. apply app_nil_r.
    + simpl. split; [reflexivity|].
      unfold emit. simpl. rewrite !sleeps_app, sleeps_world_random. simpl.
      rewrite app_nil_r. reflexivity.
Qed.

Lemma retry_wrapper_bounded_witness :
  exists (k : nat) (wk : World),
    Z.of_nat k <= 3
    /\ after_failures (PyInt 1) flaky k 0
         (sample_world sample_buckets
            [Some (ServiceUnavailable "503"); Some (InternalServerError "500")])
       = Some wk
    /\ ((Z.of_nat k < 3
         /\ exists o w', run flaky wk = (o, w')
                         /\ (forall e, o = Raised e -> is_transient e = false)
                         /\ run (retry_with_backoff 3 (PyInt 1) flaky)
                              (sample_world sample_buckets
                                 [Some (ServiceUnavailable "503");
                                  Some (InternalServerError "500")])
                            = (o, w'))
        \/ (Z.of_nat k < 3
            /\ exists e w1 x w',
                 run flaky wk = (Raised e, w1)
                 /\ is_transient e = true
                 /\ run (backoff (PyInt 1) (Z.of_nat k) e) w1 = (Raised x, w')
                 /\ run (retry_with_backoff 3 (PyInt 1) flaky)
                      (sample_world sample_buckets
                         [Some (ServiceUnavailable "503");
                          Some (InternalServerError "500")])
                    = (Raised x, w'))
        \/ (Z.of_nat k = 3
            /\ run (retry_with_backoff 3 (PyInt 1) flaky)
                 (sample_world sample_buckets
                    [Some (ServiceUnavailable "503"); Some (InternalServerError "500")])
               = (Raised (PyException ("Failed after " +:+ pretty 3 +:+ " retries")), wk))).
Proof.
  apply (retry_wrapper_bounded 3 (PyInt 1) flaky
           (sample_world sample_buckets
              [Some (ServiceUnavailable "503"); Some (InternalServerError "500")])).
  lia.
Defined.

(** C10 as stated fails: with [retries = 35], the default base 1 and a
    function that raises [ServiceUnavailable] at each of its 35 invocations,
    the wrapper does not raise [Exception("Failed after 35 retries")] after
    the 35th failure.  The delay of attempt 34 is [2 ** 34] seconds, more
    than [time.sleep] takes, and the [OverflowError] of [time.sleep] leaves
    the [except] block: 35 invocations, 34 sleeps. *)
Lemma retry_wrapper_escapes :
  let w := sample_world sample_buckets (replicate 35 (Some (ServiceUnavailable "503"))) in
  let r := run (retry_with_backoff 35 (PyInt 1) flaky) w in
  0 <= 35
  /\ r.1 <> Raised (PyException "Failed after 35 retries")
  /\ r.1 = Raised (OverflowError "timestamp too large to convert to C _PyTime_t")
  /\ length (gets (trace r.2)) = 35%nat
  /\ length (sleeps (trace r.2)) = 34%nat.
Proof. vm_compute. split_and!; (reflexivity || discriminate). Qed.

(** Two transient failures, then a result: three invocations, two sleeps of
    1 and 2 seconds (the jitter source of the sample world gives 0.0). *)
Example flaky_third_time_lucky :
  let w' := run (retry_with_backoff 3 (PyInt 1) flaky)
              (sample_world sample_buckets
                 [Some (ServiceUnavailable "503"); Some (InternalServerError "500")]) in
  w'.1 = Returned tt
  /\ sleeps (trace w'.2) = [nearest_float 1; nearest_float 2]
  /\ length (gets (trace w'.2)) = 3%nat.
Proof. vm_compute. split_and!; reflexivity. Qed.

(** Three transient failures with [retries = 3]: three invocations, three
    sleeps, then the exception. *)
Example flaky_gives_up :
  let w' := run (retry_with_backoff 3 (PyInt 1) flaky)
              (sample_world sample_buckets
                 [Some (ServiceUnavailable "503"); Some (InternalServerError "500");
                  Some (TooManyRequests "429")]) in
  w'.1 = Raised (PyException "Failed after 3 retries")
  /\ sleeps (trace w'.2) = [nearest_float 1; nearest_float 2; nearest_float 4]
  /\ length (gets (trace w'.2)) = 3%nat.
Proof. vm_compute. split_and!; reflexivity. Qed.

(** With the default base, the delay of attempt 1024 cannot be computed:
    [2 ** 1024] is too large for a [float]; a negative base gives a delay
    [time.sleep] refuses. *)
Example delays_that_raise :
  sleep_time (PyInt 1) 1023 (S754_zero false) = inr (nearest_float (2 ^ 1023))
  /\ sleep_time (PyInt 1) 1024 (S754_zero false)
     = inl (OverflowError "int too large to convert to float")
  /\ sleep_refuses (nearest_float (2 ^ 33)) = None
  /\ sleep_refuses (nearest_float (2 ^ 34))
     = Some (OverflowError "timestamp too large to convert to C _PyTime_t")
  /\ match sleep_time (PyInt (-5)) 0 (S754_zero false) with
     | inr d => sleep_refuses d
     | inl _ => None
     end = Some (ValueError "sleep length must be non-negative").
Proof. vm_compute. split_and!; reflexivity. Qed.

(** ** Terminal errors *)

Lemma is_terminal_is_api (e : exn) :
  is_terminal_api_error e = true -> is_GoogleAPIError e = true.
Proof. destruct e; simpl; auto. Qed.

(** ** The thread pool *)

Lemma extends_refl (w : World) : extends w w.
Proof. exists []. rewrite app_nil_r. reflexivity. Qed.

Lemma extends_trans (w1 w2 w3 : World) : extends w1 w2 -> extends w2 w3 -> extends w1 w3.
Proof.
  intros [e1 H1] [e2 H2]. exists (e1 ++ e2). rewrite H2, H1, app_assoc. reflexivity.
Qed.

Lemma extends_elem (w w' : World) (ev : event) :
  extends w w' -> ev ∈ trace w -> ev ∈ trace w'.
Proof. intros [evs ->] H. apply elem_of_app. auto. Qed.

Lemma extends_emit (ev : event) (w : World) : extends w (emit ev w).
Proof. exists [ev]. reflexivity. Qed.

Lemma extends_next_fault (w : World) : extends w (next_fault w).2.
Proof.
  destruct (next_fault_spec w) as (_ & T & _). exists []. rewrite T, app_nil_r. reflexivity.
Qed.

Lemma extends_step {A : Type} (p : Prog A) (w : World) : extends w (step p w).2.
Proof.
  destruct p as [a|e|pid k|c n k|b k|l m k|k|q k]; simpl;
    try apply extends_refl; try apply extends_emit.
  - unfold world_client.
    pose proof (extends_next_fault (emit (EClient pid) w)) as H.
    destruct (next_fault _) as [[e|] w']; simpl in *;
      (eapply extends_trans; [apply extends_emit | exact H]).
  - unfold world_get_bucket.
    pose proof (extends_next_fault (emit (EGetBucket (client_project c) n) w)) as H.
    destruct (next_fault _) as [[e|] w']; simpl in *;
      [|destruct (remote w' !! n)]; simpl;
      (eapply extends_trans; [apply extends_emit | exact H]).
  - destruct (world_patch_spec b w) as (T & _).
    destruct (world_patch b w) as [r w']; simpl in *. exists [EPatch b]. assumption.
  - unfold world_random. destruct (jitter w); simpl; exists []; simpl;
      rewrite app_nil_r; reflexivity.
Qed.

Lemma extends_run {A : Type} (p : Prog A) (w : World) : extends w (run p w).2.
Proof.
  revert w; induction p as [a|e|pid k IH|c n k IH|b k IH|l m k IH|k IH|q k IH];
    intros w; try apply extends_refl.
  - pose proof (extends_step (NewClient pid k) w) as H. simpl in *.
    destruct (world_client pid w) as [r w']. eapply extends_trans; [exact H | apply IH].
  - pose proof (extends_step (GetBucket c n k) w) as H. simpl in *.
    destruct (world_get_bucket c n w) as [r w']. eapply extends_trans; [exact H | apply IH].
  - pose proof (extends_step (Patch b k) w) as H. simpl in *.
    destruct (world_patch b w) as [r w']. eapply extends_trans; [exact H | apply IH].
  - simpl. eapply extends_trans; [apply extends_emit | apply IH].
  - pose proof (extends_step (RandomUniform k) w) as H. simpl in *.
    destruct (world_random w) as [r w']. eapply extends_trans; [exact H | apply IH].
  - simpl. eapply extends_trans; [apply extends_emit | apply IH].
Qed.

Lemma step_done {A : Type} (p : Prog A) (w : World) :
  is_done p = true -> step p w = (p, w).
Proof. destruct p; simpl; try discriminate; reflexivity. Qed.

Lemma settle_done {A : Type} (p : Prog A) (w : World) :
  is_done p = true -> settle p w = (p, w).
Proof. destruct p; simpl; try discriminate; reflexivity. Qed.

Lemma settle_is_done {A : Type} (p : Prog A) (w : World) : is_done (settle p w).1 = true.
Proof. unfold settle. destruct (run p w) as [[a|e] w']; reflexivity. Qed.

Lemma advances_refl (fs : list (Prog Row)) : advances fs fs.
Proof. split; auto. Qed.

Lemma advances_insert (fs : list (Prog Row)) (i : nat) (p : Prog Row) (w : World) :
  fs !! i = Some p -> advances fs (<[i := (step p w).1]> fs).
Proof.
  intros Hi. split; [apply length_insert|].
  intros j q Hj Hq. destruct (decide (i = j)) as [->|Hne].
  - assert (q = p) as -> by congruence.
    rewrite step_done by assumption. simpl.
    rewrite list_lookup_insert_eq; [reflexivity|]. eapply lookup_lt_Some; eassumption.
  - rewrite list_lookup_insert_ne by assumption. assumption.
Qed.

Lemma omap_ext_in {A B : Type} (f g : A -> option B) (l : list A) :
  (forall x, x ∈ l -> f x = g x) -> omap f l = omap g l.
Proof.
  intros H. apply list_omap_ext, Forall_Forall2_diag, Forall_forall. exact H.
Qed.

(** The invariant survives whatever lets the futures advance. *)
Lemma pool_inv_advance (G : exn -> Prop) (df : list (string * string))
    (st : Executor) (w : World) (fs' : list (Prog Row)) (n : nat) (w' : World) :
  pool_inv G df st w ->
  advances (futures st) fs' ->
  Forall2 (future_of G) df fs' ->
  world_ok G w' ->
  extends w w' ->
  pool_inv G df (mkExecutor fs' n (yielded st) (results st)) w'.
Proof.
  intros [Hf Hw Hnd Hd Hr Hl] [Hlen Hadv] Hf' Hw' Hext.
  split; simpl; try assumption.
  - intros i Hi. destruct (Hd i Hi) as (p & Hp & Hdone). eauto.
  - rewrite Hr. apply omap_ext_in. intros i Hi.
    destruct (Hd i Hi) as (p & Hp & Hdone).
    rewrite Hp, (Hadv i p Hp Hdone). reflexivity.
  - intros i e Hi He. destruct (Hd i Hi) as (p & Hp & Hdone).
    pose proof (Hadv i p Hp Hdone) as Hp'.
    assert (p = Raise e) as -> by congruence.
    eapply extends_elem; [eassumption|]. eapply Hl; eassumption.
Qed.

Section pool.
Variable G : exn -> Prop.
Hypothesis G_NotFound : forall m, G (NotFound m).
Variable df : list (string * string).

Lemma pool_inv_init (w : World) : world_ok G w -> pool_inv G df (submit_all df) w.
Proof.
  intros Hw. split; simpl; try assumption.
  - apply Forall2_fmap_r, Forall_Forall2_diag, Forall_forall.
    intros [p b] _. exact (process_bucket_leaves G p b).
  - constructor.
  - intros i Hi. inversion Hi.
  - reflexivity.
  - intros i e Hi. inversion Hi.
Qed.

Lemma future_of_step (i : nat) (p : Prog Row) (fs : list (Prog Row)) (w : World) :
  Forall2 (future_of G) df fs -> world_ok G w -> fs !! i = Some p ->
  Forall2 (future_of G) df (<[i := (step p w).1]> fs) /\ world_ok G (step p w).2.
Proof.
  intros Hf Hw Hi.
  destruct (Forall2_lookup_r _ _ _ _ _ Hf Hi) as (row & Hrow & Hp).
  destruct (leaves_step G G_NotFound _ _ p w Hw Hp) as [Hp' Hw'].
  split; [|assumption].
  rewrite <- (list_insert_id df i row Hrow).
  apply Forall2_insert; assumption.
Qed.

Lemma pool_inv_work (i : nat) (st : Executor) (w : World) :
  pool_inv G df st w -> pool_inv G df (work i st w).1 (work i st w).2.
Proof.
  intros Hinv. unfold work.
  destruct (futures st !! i) as [p|] eqn:Hi; [|destruct st; exact Hinv].
  destruct (future_of_step i p (futures st) w (inv_futures _ _ _ _ Hinv)
              (inv_world _ _ _ _ Hinv) Hi) as [Hf' Hw'].
  pose proof (advances_insert (futures st) i p w Hi) as Hadv.
  pose proof (extends_step p w) as Hext.
  destruct (step p w) as [p' w'] eqn:Hstep; simpl in *.
  repeat case_bool_decide; simpl;
    try (destruct st; exact Hinv);
    apply pool_inv_advance with (w := w); assumption.
Qed.

Lemma pool_inv_collect (i : nat) (st : Executor) (w : World) :
  pool_inv G df st w -> pool_inv G df (collect i st w).1 (collect i st w).2.
Proof.
  intros Hinv. unfold collect.
  case_bool_decide as Hin; [exact Hinv|].
  destruct (futures st !! i) as [p|] eqn:Hi; [|exact Hinv].
  destruct Hinv as [Hf Hw Hnd Hd Hr Hl].
  destruct p as [r|e| | | | | | ]; try (split; assumption); simpl.
  - split; simpl; try assumption.
    + apply NoDup_app. split_and!; [assumption| |apply NoDup_singleton].
      intros x Hx Hx'. apply list_elem_of_singleton in Hx'. congruence.
    + intros j Hj. apply elem_of_app in Hj as [Hj|Hj]; [auto|].
      apply list_elem_of_singleton in Hj as ->. eauto.
    + rewrite omap_app, <- Hr. simpl. rewrite Hi. reflexivity.
    + intros j e Hj He. apply elem_of_app in Hj as [Hj|Hj]; [eauto|].
      apply list_elem_of_singleton in Hj as ->. congruence.
  - split; simpl; try assumption.
    + apply NoDup_app. split_and!; [assumption| |apply NoDup_singleton].
      intros x Hx Hx'. apply list_elem_of_singleton in Hx'. congruence.
    + intros j Hj. apply elem_of_app in Hj as [Hj|Hj]; [auto|].
      apply list_elem_of_singleton in Hj as ->. eauto.
    + rewrite omap_app, <- Hr. simpl. rewrite Hi. simpl. rewrite app_nil_r. reflexivity.
    + intros j e' Hj He. apply elem_of_app. apply elem_of_app in Hj as [Hj|Hj].
      * left. eauto.
      * apply list_elem_of_singleton in Hj as ->.
        assert (e' = e) as -> by congruence. right. left.
Qed.

Lemma pool_inv_run_schedule (sched : list action) (st : Executor) (w : World) :
  pool_inv G df st w ->
  pool_inv G df (run_schedule sched (st, w)).1 (run_schedule sched (st, w)).2.
Proof.
  unfold run_schedule. revert st w.
  induction sched as [|a sched IH]; intros st w Hinv; simpl; [assumption|].
  destruct a as [i|i]; simpl.
  - pose proof (pool_inv_work i st w Hinv) as H.
    destruct (work i st w) as [st' w']. apply IH. assumption.
  - pose proof (pool_inv_collect i st w Hinv) as H.
    destruct (collect i st w) as [st' w']. apply IH. assumption.
Qed.
End pool.

Section drain.
Variable G : exn -> Prop.
Hypothesis G_NotFound : forall m, G (NotFound m).

Lemma settle_all_spec (fs : list (Prog Row)) :
  forall (df : list (string * string)) (w : World),
    Forall2 (future_of G) df fs -> world_ok G w ->
    Forall2 (future_of G) df (settle_all fs w).1
    /\ world_ok G (settle_all fs w).2
    /\ Forall (fun p => is_done p = true) (settle_all fs w).1
    /\ extends w (settle_all fs w).2
    /\ advances fs (settle_all fs w).1.
Proof.
  induction fs as [|p fs IH]; intros df w Hf Hw; simpl.
  - split_and!; auto using extends_refl, advances_refl.
  - inversion Hf as [|row q df' fs' Hp Hf' E1 E2]; subst.
    destruct (leaves_run G G_NotFound _ _ p w Hw Hp) as [Hleaf Hw1].
    pose proof (extends_run p w) as Hext1.
    pose proof (settle_done p w) as Hdone.
    pose proof (settle_is_done p w) as Hisdone.
    unfold settle in *.
    destruct (run p w) as [o w1]; simpl in *.
    destruct (IH df' w1 Hf' Hw1) as (Hf2 & Hw2 & Hd2 & Hext2 & Hlen2 & Hadv2).
    destruct (settle_all fs w1) as [fs2 w2]; simpl in *.
    split_and!.
    + constructor; [|assumption]. destruct o; exact Hleaf.
    + assumption.
    + constructor; assumption.
    + eapply extends_trans; eassumption.
    + split; simpl; [congruence|].
      intros [|j] q Hq Hqd; simpl in *.
      * injection Hq as ->. specialize (Hdone Hqd). congruence.
      * apply Hadv2; assumption.
Qed.

Lemma collect_futures (i : nat) (st : Executor) (w : World) :
  futures (collect i st w).1 = futures st
  /\ (forall j, j ∈ yielded st -> j ∈ yielded (collect i st w).1)
  /\ (forall p, futures st !! i = Some p -> is_done p = true ->
                i ∈ yielded (collect i st w).1).
Proof.
  unfold collect. case_bool_decide as Hin; simpl; [auto|].
  destruct (futures st !! i) as [q|] eqn:Hi; [|split_and!; [reflexivity|auto|discriminate]].
  destruct q; simpl; (split_and!; [reflexivity | |]);
    try (intros j Hj; first [assumption | apply elem_of_app; left; assumption]);
    intros p [= <-] Hd; try discriminate Hd; apply elem_of_app; right; left.
Qed.

Lemma collect_all (df : list (string * string)) (l : list nat) :
  forall (st : Executor) (w : World),
    pool_inv G df st w ->
    Forall (fun p => is_done p = true) (futures st) ->
    let sw := foldl (fun sw i => collect i sw.1 sw.2) (st, w) l in
    pool_inv G df sw.1 sw.2
    /\ futures sw.1 = futures st
    /\ (forall j, j ∈ yielded st -> j ∈ yielded sw.1)
    /\ (forall i, i ∈ l -> (i < length (futures st))%nat -> i ∈ yielded sw.1).
Proof.
  induction l as [|i l IH]; intros st w Hinv Hdone; simpl.
  - split_and!; auto. intros i Hi. inversion Hi.
  - pose proof (pool_inv_collect G df i st w Hinv) as Hinv'.
    destruct (collect_futures i st w) as (Hfs & Hmono & Hin).
    destruct (collect i st w) as [st' w'] eqn:Hc; simpl in *.
    destruct (IH st' w' Hinv') as (Hinv2 & Hfs2 & Hmono2 & Hall2).
    { rewrite Hfs. assumption. }
    split_and!.
    + assumption.
    + congruence.
    + auto.
    + intros j Hj Hlt. apply elem_of_cons in Hj as [->|Hj].
      * destruct (lookup_lt_is_Some_2 _ _ Hlt) as [p Hp].
        apply Hmono2, (Hin p Hp).
        exact (Forall_lookup_1 _ _ _ _ Hdone Hp).
      * apply Hall2; [assumption|]. rewrite Hfs. assumption.
Qed.

Lemma omap_seq_lookup {A B : Type} (f : A -> option B) (l : list A) :
  omap (fun i => l !! i ≫= f) (seq 0 (length l)) = omap f l.
Proof.
  induction l as [|x l IH] using rev_ind; [reflexivity|].
  rewrite length_app. simpl. rewrite Nat.add_1_r, seq_S, !omap_app. simpl.
  f_equal.
  - rewrite <- IH. apply omap_ext_in. intros i Hi.
    apply elem_of_seq in Hi. rewrite lookup_app_l by lia. reflexivity.
  - rewrite list_lookup_middle by reflexivity. reflexivity.
Qed.

(** What the [with] block has done when it is left, whatever the
    schedule: every future is finished and is what its input row can
    become; the rows collected are, in some order, exactly the rows the
    futures returned; and every future that raised has its line in the
    log. *)
Lemma gather_spec (sched : list action) (df : list (string * string)) (w : World) :
  world_ok G w ->
  let st := (gather sched df w).1 in
  let w' := (gather sched df w).2 in
  Forall2 (future_of G) df (futures st)
  /\ Forall (fun p => is_done p = true) (futures st)
  /\ results st ≡ₚ omap future_row (futures st)
  /\ (forall e, Raise e ∈ futures st -> thread_error e ∈ trace w')
  /\ world_ok G w'.
Proof.
  intros Hw. unfold gather.
  pose proof (pool_inv_run_schedule G G_NotFound df sched _ w
                (pool_inv_init G df w Hw)) as Hinv.
  destruct (run_schedule sched (submit_all df, w)) as [st0 w0]; simpl in Hinv.
  unfold drain.
  destruct (settle_all_spec (futures st0) df w0 (inv_futures _ _ _ _ Hinv)
              (inv_world _ _ _ _ Hinv)) as (Hf1 & Hw1 & Hd1 & Hext1 & Hadv1).
  destruct (settle_all (futures st0) w0) as [fs w1]; simpl in *.
  pose proof (pool_inv_advance G df st0 w0 fs (length fs) w1 Hinv Hadv1 Hf1 Hw1 Hext1)
    as Hinv1.
  destruct (collect_all df (seq 0 (length fs)) _ w1 Hinv1 Hd1)
    as (Hinv2 & Hfs2 & _ & Hall); simpl in *.
  destruct (foldl _ _ _) as [st2 w2]; simpl in *.
  destruct Hinv2 as [Hf2 Hw2 Hnd2 Hdone2 Hr2 Hl2].
  assert (Hperm : yielded st2 ≡ₚ seq 0 (length fs)).
  { apply NoDup_Permutation; [assumption | apply NoDup_seq |].
    intros i. rewrite elem_of_seq. split.
    - intros Hi. destruct (Hdone2 i Hi) as (p & Hp & _).
      apply lookup_lt_Some in Hp. rewrite Hfs2 in Hp. lia.
    - intros [_ Hi]. apply Hall; [apply elem_of_seq; lia | lia]. }
  rewrite Hfs2 in *.
  split_and!; try assumption.
  - rewrite Hr2, Hperm. rewrite omap_seq_lookup. reflexivity.
  - intros e He. apply list_elem_of_lookup in He as [i Hi].
    apply (Hl2 i e); [|assumption].
    rewrite Hperm. apply elem_of_seq. apply lookup_lt_Some in Hi. lia.
Qed.
End drain.

(** ** Claims on the batch *)

Lemma returned_rows (G : exn -> Prop) (df : list (string * string)) (fs : list (Prog Row)) :
  Forall2 (future_of G) df fs ->
  Forall (fun p => is_done p = true) fs ->
  Forall (fun p => future_exn p = None) fs ->
  Forall2 (fun row r => reports row.1 row.2 r) df (omap future_row fs).
Proof.
  induction 1 as [|row p df fs Hp Hf IH]; intros Hd Hn; [constructor|].
  inversion Hd; inversion Hn; subst.
  destruct p; simpl in *; try discriminate.
  constructor; [exact Hp | apply IH; assumption].
Qed.

Lemma reports_rows (df : list (string * string)) (rows : list Row) :
  Forall2 (fun row r => reports row.1 row.2 r) df rows ->
  identity <$> rows = identity_of <$> df
  /\ length rows = length df
  /\ Forall has_valid_status rows.
Proof.
  induction 1 as [|[p b] r df rows [Hid Hst] Hf (IH1 & IH2 & IH3)]; simpl in *.
  - split_and!; [reflexivity | reflexivity | constructor].
  - split_and!; [| |constructor; assumption].
    + change (identity r :: (identity <$> rows)
              = identity_of (p, b) :: (identity_of <$> df)).
      f_equal; assumption.
    + f_equal. assumption.
Qed.

Lemma process_csv_eq (sched : list action) (file_path output_path : string)
    (w : World) (df : list (string * string)) :
  inputs w !! file_path = Some df ->
  process_csv sched file_path output_path w
  = (Returned (results (gather sched df w).1),
     to_csv output_path (results (gather sched df w).1) (gather sched df w).2)
  /\ outputs (to_csv output_path (results (gather sched df w).1) (gather sched df w).2)
     !! output_path = Some (results (gather sched df w).1)
  /\ extends (gather sched df w).2
       (to_csv output_path (results (gather sched df w).1) (gather sched df w).2).
Proof.
  intros Hin. unfold process_csv. rewrite Hin.
  destruct (gather sched df w) as [st w']. simpl. split_and!.
  - reflexivity.
  - apply lookup_insert_eq.
  - exists [EToCsv output_path]. reflexivity.
Qed.

Lemma one_row_per_future (G : exn -> Prop) (sched : list action)
    (file_path output_path : string) (w : World) (df : list (string * string)) :
  (forall m, G (NotFound m)) ->
  world_ok G w ->
  inputs w !! file_path = Some df ->
  Forall (fun p => future_exn p = None) (futures (gather sched df w).1) ->
  exists rows w',
    process_csv sched file_path output_path w = (Returned rows, w')
    /\ outputs w' !! output_path = Some rows
    /\ identity <$> rows ≡ₚ identity_of <$> df
    /\ length rows = length df
    /\ Forall has_valid_status rows.
Proof.
  intros HG Hw Hin Hnone.
  destruct (process_csv_eq sched file_path output_path w df Hin) as (Heq & Hout & _).
  destruct (gather_spec G HG sched df w Hw) as (Hf & Hd & Hperm & _).
  destruct (reports_rows _ _ (returned_rows G _ _ Hf Hd Hnone)) as (Hid & Hlen & Hst).
  eexists _, _. split; [exact Heq|]. split; [exact Hout|].
  split_and!.
  - rewrite Hperm, Hid. reflexivity.
  - rewrite Hperm. assumption.
  - rewrite Hperm. assumption.
Qed.

(** C3. In a run of [process_csv] in which no future raises, whatever the
    interleaving of the workers and the order in which the futures are
    collected: the report has exactly one row per input row (the identity
    columns of the report are a permutation of the input rows), each with
    status "Migrated", "Skipped" or one that starts with "Error: ". *)
Theorem one_row_per_input (sched : list action) (file_path output_path : string)
    (w : World) (df : list (string * string)) :
  inputs w !! file_path = Some df ->
  Forall (fun p => future_exn p = None) (futures (gather sched df w).1) ->
  exists rows w',
    process_csv sched file_path output_path w = (Returned rows, w')
    /\ outputs w' !! output_path = Some rows
    /\ identity <$> rows ≡ₚ identity_of <$> df
    /\ length rows = length df
    /\ Forall has_valid_status rows.
Proof.
  apply (one_row_per_future (fun _ => True)); [auto|].
  apply Forall_forall. auto.
Qed.

Lemma none_raised (fs : list (Prog Row)) :
  forallb (fun p => match future_exn p with None => true | Some _ => false end) fs = true ->
  Forall (fun p => future_exn p = None) fs.
Proof.
  intros H. apply Forall_forall. intros p Hp.
  apply list_elem_of_In in Hp. rewrite forallb_forall in H. specialize (H p Hp).
  destruct (future_exn p); [discriminate H | reflexivity].
Qed.

Lemma one_row_per_input_witness :
  exists rows w',
    process_csv sample_schedule "in.csv" "in_output.csv" sample_input_api
    = (Returned rows, w')
    /\ outputs w' !! "in_output.csv" = Some rows
    /\ identity <$> rows ≡ₚ identity_of <$> [("p1", "b1"); ("p2", "b2"); ("p3", "b3")]
    /\ length rows = 3%nat
    /\ Forall has_valid_status rows.
Proof.
  apply (one_row_per_input sample_schedule "in.csv" "in_output.csv" sample_input_api
           [("p1", "b1"); ("p2", "b2"); ("p3", "b3")]).
  - reflexivity.
  - apply none_raised. vm_compute. reflexivity.
Defined.

(** The rows of the report need not come in the order of the input. *)
Example report_order_differs :
  identity <$> (results (gather sample_schedule [("p1", "b1"); ("p2", "b2"); ("p3", "b3")]
                           sample_input_api).1)
  = identity_of <$> [("p2", "b2"); ("p1", "b1"); ("p3", "b3")].
Proof. vm_compute. reflexivity. Qed.

Lemma finished_futures_split (fs : list (Prog Row)) :
  Forall (fun p => is_done p = true) fs ->
  (length (omap future_row fs) + length (omap future_exn fs) = length fs)%nat.
Proof.
  induction 1 as [|p fs Hp Hd IH]; [reflexivity|].
  destruct p; simpl in Hp; try discriminate; csimpl; lia.
Qed.

(** C9. Whatever the schedule, [process_csv] on a readable input returns
    and writes the report.  Every future is finished by then; a future that
    returned contributes its row, a report on its input row; a future that
    raised (which it only does with an exception that is not a
    [GoogleAPIError]) contributes no row, and its exception is logged as
    "Error in processing thread: ...".  The report holds exactly the rows of
    the futures that returned. *)
Theorem raised_future_is_logged_and_dropped (sched : list action)
    (file_path output_path : string) (w : World) (df : list (string * string)) :
  inputs w !! file_path = Some df ->
  exists rows w',
    process_csv sched file_path output_path w = (Returned rows, w')
    /\ outputs w' !! output_path = Some rows
    /\ rows ≡ₚ omap future_row (futures (gather sched df w).1)
    /\ (length rows + length (omap future_exn (futures (gather sched df w).1))
        = length df)%nat
    /\ forall i row, df !! i = Some row ->
         (exists r, futures (gather sched df w).1 !! i = Some (Ret r)
                    /\ reports row.1 row.2 r /\ r ∈ rows)
         \/ (exists e, futures (gather sched df w).1 !! i = Some (Raise e)
                       /\ is_GoogleAPIError e = false
                       /\ ELog ERROR ("Error in processing thread: " +:+ str e) ∈ trace w').
Proof.
  intros Hin.
  destruct (process_csv_eq sched file_path output_path w df Hin) as (Heq & Hout & Hext).
  destruct (gather_spec (fun _ => True) (fun _ => I) sched df w)
    as (Hf & Hd & Hperm & Hlog & _).
  { apply Forall_forall. auto. }
  eexists _, _. split; [exact Heq|]. split; [exact Hout|].
  split_and!.
  - exact Hperm.
  - rewrite Hperm. rewrite (Forall2_length _ _ _ Hf).
    apply finished_futures_split. assumption.
  - intros i row Hi.
    destruct (Forall2_lookup_l _ _ _ _ _ Hf Hi) as (p & Hp & Hleaf).
    pose proof (Forall_lookup_1 _ _ _ _ Hd Hp) as Hdone.
    destruct p as [r|e| | | | | | ]; simpl in Hdone; try discriminate.
    + left. exists r. split_and!; [assumption | exact Hleaf |].
      rewrite Hperm. apply list_elem_of_omap. exists (Ret r). split; [|reflexivity].
      eapply list_elem_of_lookup_2. eassumption.
    + right. exists e. destruct Hleaf as [Hapi _]. split_and!; [assumption..|].
      eapply extends_elem; [exact Hext|]. apply Hlog.
      eapply list_elem_of_lookup_2. eassumption.
Qed.

Lemma raised_future_is_logged_and_dropped_witness :
  exists rows w',
    process_csv sample_schedule "in.csv" "in_output.csv" sample_input = (Returned rows, w')
    /\ outputs w' !! "in_output.csv" = Some rows
    /\ rows ≡ₚ omap future_row
                 (futures (gather sample_schedule [("p1", "b1"); ("p2", "b2"); ("p3", "b3")]
                             sample_input).1).
Proof.
  destruct (raised_future_is_logged_and_dropped sample_schedule "in.csv" "in_output.csv"
              sample_input [("p1", "b1"); ("p2", "b2"); ("p3", "b3")] eq_refl)
    as (rows & w' & Heq & Hout & Hperm & _).
  exists rows, w'. split_and!; assumption.
Defined.

(** In the sample run the client of row [p2, b2] cannot be built and the
    exception is not a [GoogleAPIError]: the report has the two other rows,
    and the log has the line of the collection loop. *)
Example dropped_row_sample :
  let res := process_csv sample_schedule "in.csv" "in_output.csv" sample_input in
  (identity <$> default [] (match res.1 with Returned rows => Some rows | Raised _ => None end))
  = identity_of <$> [("p1", "b1"); ("p3", "b3")]
  /\ omap (fun ev => match ev with ELog ERROR m => Some m | _ => None end) (trace res.2)
     = ["Error in processing thread: connection reset";
        "Error processing bucket 'b1' in project 'p1': 404 gone"].
Proof. vm_compute. split; reflexivity. Qed.

(** C6. When the fetch raises a terminal API error (not found, permission
    denied, invalid argument), [process_bucket] does nothing more than log
    the error: it does not fetch again, does not sleep and does not patch,
    and returns the row with status "Error: " followed by [str(e)], empty
    strings and [False] in the snapshot columns.  And a batch in which the
    service fails by terminal API errors only, however often, goes on to the
    end: the report has one row for each input row. *)
Theorem terminal_error_row :
  (forall (p b : string) (w w1 : World) (e : exn),
      fetch p b w = (inl e, w1) ->
      is_terminal_api_error e = true ->
      exists r w',
        run (process_bucket p b) w = (Returned r, w')
        /\ w' = emit (ELog ERROR ("Error processing bucket '" +:+ b +:+ "' in project '"
                                  +:+ p +:+ "': " +:+ str e)) w1
        /\ sleeps (trace w') = sleeps (trace w)
        /\ patches (trace w') = patches (trace w)
        /\ (gets (trace w') = gets (trace w) \/ gets (trace w') = gets (trace w) ++ [(p, b)])
        /\ remote w' = remote w
        /\ r !! "migration_status" = Some (VStr ("Error: " +:+ str e))
        /\ r !! "project_id" = Some (VStr p)
        /\ r !! "bucket_name" = Some (VStr b)
        /\ r !! "storage_class" = Some (VStr "")
        /\ r !! "location" = Some (VStr "")
        /\ r !! "location_type" = Some (VStr "")
        /\ r !! "autoclass_enabled" = Some (VBool false)
        /\ r !! "autoclass_terminal_storage_class" = Some (VStr "")
        /\ r !! "requester_pays" = Some (VBool false))
  /\ (forall (sched : list action) (file_path output_path : string) (w : World)
             (df : list (string * string)),
         inputs w !! file_path = Some df ->
         world_ok (fun e => is_terminal_api_error e = true) w ->
         exists rows w',
           process_csv sched file_path output_path w = (Returned rows, w')
           /\ outputs w' !! output_path = Some rows
           /\ identity <$> rows ≡ₚ identity_of <$> df
           /\ length rows = length df
           /\ Forall has_valid_status rows).
Proof.
  split.
  - intros p b w w1 e Hf He.
    destruct (error_row_fields p b e) as (F1 & F2 & F3 & F4 & F5 & F6 & F7 & F8 & F9).
    destruct (fetch_spec p b w) as (R1 & _ & _ & _ & (ev1 & T1 & P1 & S1 & G1) & _).
    rewrite Hf in *. simpl in *.
    exists (error_row p b e). eexists. split.
    { rewrite run_process_bucket, run_process_bucket_body, Hf. unfold on_exception.
      rewrite (is_terminal_is_api e He). reflexivity. }
    simpl. rewrite T1, <- !app_assoc, !sleeps_app, !patches_app, !gets_app, P1, S1.
    simpl. rewrite !app_nil_r.
    split_and!; try assumption; try reflexivity.
    destruct G1 as [-> | ->]; [left | right]; rewrite ?app_nil_r; reflexivity.
  - intros sched file_path output_path w df Hin Hw.
    apply (one_row_per_future (fun e => is_terminal_api_error e = true));
      [reflexivity | assumption | assumption |].
    destruct (gather_spec (fun e => is_terminal_api_error e = true)
                (fun m => eq_refl) sched df w Hw) as (Hf & _).
    clear -Hf. induction Hf as [|row p df fs Hp Hf IH]; constructor; [|assumption].
    destruct p; try reflexivity. simpl in *. destruct Hp as [Hp1 Hp2].
    rewrite (is_terminal_is_api e Hp2) in Hp1. discriminate.
Qed.

Lemma terminal_error_row_witness :
  (exists r w',
      run (process_bucket "p9" "missing") (sample_world sample_buckets []) = (Returned r, w')
      /\ r !! "migration_status" = Some (VStr "Error: 404 missing")
      /\ r !! "autoclass_enabled" = Some (VBool false)
      /\ r !! "storage_class" = Some (VStr "")
      /\ sleeps (trace w') = [])
  /\ (exists rows w',
         process_csv sample_schedule "in.csv" "in_output.csv" sample_input_api
         = (Returned rows, w')
         /\ length rows = 3%nat).
Proof.
  split.
  - destruct (proj1 terminal_error_row "p9" "missing" (sample_world sample_buckets [])
                (fetch "p9" "missing" (sample_world sample_buckets [])).2
                (NotFound "404 missing") eq_refl eq_refl)
      as (r & w' & H1 & _ & H3 & _ & _ & _ & H7 & _ & _ & H10 & _ & _ & H13 & _).
    exists r, w'. split_and!; assumption.
  - assert (Hw : world_ok (fun e => is_terminal_api_error e = true) sample_input_api).
    { repeat constructor; intros e [= <-]; reflexivity. }
    destruct (proj2 terminal_error_row sample_schedule "in.csv" "in_output.csv"
                sample_input_api [("p1", "b1"); ("p2", "b2"); ("p3", "b3")] eq_refl Hw)
      as (rows & w' & H1 & _ & _ & H4 & _).
    exists rows, w'. split; assumption.
Defined.

(** * Further properties *)

(** ** The decorator *)

(** X1. With [retries > 0], when the first invocation of the function does
    not raise one of the three retried exceptions, the decorated function
    does exactly what the function does: same outcome (a value, or an
    exception of another class, which passes through), same world, no log
    line and no sleep added. *)
Theorem wrapper_transparent {A : Type} (n : Z) (base : number) (func : Prog A)
    (w : World) :
  0 < n ->
  (forall e, (run func w).1 = Raised e -> is_transient e = false) ->
  run (retry_with_backoff n base func) w = run func w.
Proof.
  intros Hn Hnt. unfold retry_with_backoff, wrapper.
  rewrite run_wrapper_loop, bool_decide_eq_true_2 by lia.
  destruct (run func w) as [[a|e] w1]; [reflexivity|].
  rewrite (Hnt e eq_refl). reflexivity.
Qed.

Lemma wrapper_transparent_witness :
  run (retry_with_backoff 5 (PyInt 1) flaky)
    (sample_world sample_buckets [Some (Forbidden "403")])
  = run flaky (sample_world sample_buckets [Some (Forbidden "403")]).
Proof.
  apply wrapper_transparent; [lia|].
  intros e He. vm_compute in He. injection He as <-. reflexivity.
Defined.

(** X2. With [retries <= 0] (zero or negative) the function is never
    invoked: the wrapper raises [Exception("Failed after <retries> retries")]
    at once and leaves the world as it is. *)
Theorem wrapper_without_attempts {A : Type} (n : Z) (base : number) (func : Prog A)
    (w : World) :
  n <= 0 ->
  run (retry_with_backoff n base func) w
  = (Raised (PyException ("Failed after " +:+ pretty n +:+ " retries")), w).
Proof.
  intros Hn. unfold retry_with_backoff, wrapper.
  rewrite run_wrapper_loop, bool_decide_eq_false_2 by lia. reflexivity.
Qed.

Lemma wrapper_without_attempts_witness :
  run (retry_with_backoff (-2) (PyInt 1) flaky) (sample_world sample_buckets [])
  = (Raised (PyException "Failed after -2 retries"), sample_world sample_buckets []).
Proof. apply (wrapper_without_attempts (-2) (PyInt 1) flaky); lia. Defined.

(** ** One invocation, further *)

(** X4. A [GoogleAPIError] of any class raised by the fetch, the three
    classes the decorator names included, ends the invocation at once: the
    error is logged and the row with status "Error: <str(e)>" is returned;
    nothing else happens to the world (no second fetch, no sleep). *)
Theorem api_error_at_fetch (p b : string) (w w1 : World) (e : exn) :
  fetch p b w = (inl e, w1) ->
  is_GoogleAPIError e = true ->
  exists r,
    run (process_bucket p b) w
    = (Returned r,
       emit (ELog ERROR ("Error processing bucket '" +:+ b +:+ "' in project '"
                         +:+ p +:+ "': " +:+ str e)) w1)
    /\ r !! "migration_status" = Some (VStr ("Error: " +:+ str e))
    /\ identity r = identity_of (p, b).
Proof.
  intros Hf He. exists (error_row p b e).
  rewrite run_process_bucket, run_process_bucket_body, Hf. unfold on_exception.
  rewrite He. split_and!; reflexivity.
Qed.

Lemma api_error_at_fetch_witness :
  exists r w',
    run (process_bucket "p1" "b1")
      (sample_world sample_buckets [None; Some (InternalServerError "500 backend")])
    = (Returned r, w')
    /\ r !! "migration_status" = Some (VStr "Error: 500 backend").
Proof.
  destruct (api_error_at_fetch "p1" "b1"
              (sample_world sample_buckets [None; Some (InternalServerError "500 backend")])
              (fetch "p1" "b1"
                 (sample_world sample_buckets
                    [None; Some (InternalServerError "500 backend")])).2
              (InternalServerError "500 backend") eq_refl eq_refl)
    as (r & Hr & Hs & _).
  eexists r, _. split; [exact Hr | exact Hs].
Defined.

Lemma world_patch_fault (bk : Bucket) (w : World) (e : exn) :
  head (faults w) = Some (Some e) ->
  (world_patch bk w).1 = inl e
  /\ remote (world_patch bk w).2 = remote w
  /\ trace (world_patch bk w).2 = trace w ++ [EPatch bk].
Proof.
  intros Hh. destruct (world_patch_spec bk w) as (T & _).
  split_and!; [| |exact T].
  - unfold world_patch.
    destruct (next_fault_spec (emit (EPatch bk) w)) as (_ & _ & _ & _ & _ & _ & N).
    simpl in N. rewrite Hh in N. simpl in N.
    destruct (next_fault (emit (EPatch bk) w)) as [f w0]. simpl in N. subst f. reflexivity.
  - unfold world_patch.
    destruct (next_fault_spec (emit (EPatch bk) w)) as (R & _ & _ & _ & _ & _ & N).
    simpl in N, R. rewrite Hh in N. simpl in N.
    destruct (next_fault (emit (EPatch bk) w)) as [f w0]. simpl in *. subst f. exact R.
Qed.

Lemma announced_logs (p b : string) (bucket : Bucket) (w : World) :
  (autoclass_enabled (props bucket) = false ->
   ELog INFO ("Autoclass enabled for bucket: " +:+ b +:+ " in project " +:+ p)
     ∈ trace (announced p b bucket w))
  /\ (autoclass_terminal_storage_class (props bucket) <> Some "ARCHIVE" ->
      ELog INFO ("Migrated bucket '" +:+ b +:+ "' in project '" +:+ p
                 +:+ "' to ARCHIVE.") ∈ trace (announced p b bucket w)).
Proof.
  unfold announced. split.
  - intros ->. simpl. destruct (negb (bool_decide _)); simpl.
    + apply elem_of_app. left. apply elem_of_app. right. left.
    + apply elem_of_app. right. left.
  - intros Hne. rewrite (bool_decide_eq_false_2 _ Hne). simpl.
    apply elem_of_app. right. left.
Qed.

(** X5. When the fetch succeeded, the bucket needed the migration and
    [patch] raises a [GoogleAPIError]: the row is the error row, whose
    snapshot columns are blank although the bucket had been fetched; the
    remote bucket is unchanged; [patch] was called once; and the log lines
    written before the call ("Autoclass enabled for bucket ...", "Migrated
    bucket ... to ARCHIVE.") are in the log all the same. *)
Theorem api_error_at_patch (p b : string) (w w1 : World) (bucket : Bucket) (e : exn) :
  fetch p b w = (inr bucket, w1) ->
  autoclass_enabled (props bucket) = false
  \/ autoclass_terminal_storage_class (props bucket) <> Some "ARCHIVE" ->
  head (faults w1) = Some (Some e) ->
  is_GoogleAPIError e = true ->
  exists r w',
    run (process_bucket p b) w = (Returned r, w')
    /\ r !! "migration_status" = Some (VStr ("Error: " +:+ str e))
    /\ r !! "storage_class" = Some (VStr "")
    /\ r !! "location" = Some (VStr "")
    /\ r !! "autoclass_enabled" = Some (VBool false)
    /\ r !! "autoclass_terminal_storage_class" = Some (VStr "")
    /\ remote w' = remote w
    /\ patches (trace w') = patches (trace w) ++ [corrected bucket]
    /\ (autoclass_enabled (props bucket) = false ->
        ELog INFO ("Autoclass enabled for bucket: " +:+ b +:+ " in project " +:+ p)
          ∈ trace w')
    /\ (autoclass_terminal_storage_class (props bucket) <> Some "ARCHIVE" ->
        ELog INFO ("Migrated bucket '" +:+ b +:+ "' in project '" +:+ p
                   +:+ "' to ARCHIVE.") ∈ trace w').
Proof.
  intros Hf Hneed Hh He.
  assert (Hc : autoclass_enabled (props bucket)
               && bool_decide (autoclass_terminal_storage_class (props bucket)
                               = Some "ARCHIVE") = false).
  { destruct Hneed as [Hen | Hne]; [rewrite Hen; reflexivity|].
    rewrite bool_decide_eq_false_2 by assumption. apply andb_false_r. }
  destruct (fetch_spec p b w) as (R1 & _ & _ & _ & (ev1 & T1 & P1 & _) & _).
  rewrite Hf in *. simpl in *.
  destruct (announced_spec p b bucket w1) as (R2 & F2 & _ & _ & ev2 & T2 & P2 & _).
  destruct (announced_logs p b bucket w1) as (L1 & L2).
  destruct (world_patch_fault (corrected bucket) (announced p b bucket w1) e)
    as (Hp1 & Hp2 & Hp3).
  { rewrite F2. exact Hh. }
  exists (error_row p b e).
  rewrite run_process_bucket, run_process_bucket_body, Hf, Hc.
  destruct (world_patch (corrected bucket) (announced p b bucket w1)) as [rp w2].
  simpl in Hp1, Hp2, Hp3. subst rp. unfold on_exception. rewrite He.
  eexists. split; [reflexivity|].
  assert (Hin : forall ev, ev ∈ trace (announced p b bucket w1) ->
                  ev ∈ trace (emit (ELog ERROR ("Error processing bucket '" +:+ b
                                                  +:+ "' in project '" +:+ p +:+ "': "
                                                  +:+ str e)) w2)).
  { intros ev Hev. simpl. rewrite Hp3. apply elem_of_app. left.
    apply elem_of_app. left. exact Hev. }
  split_and!; try reflexivity.
  - simpl. rewrite Hp2, R2, R1. reflexivity.
  - simpl. rewrite Hp3, T2, T1, <- !app_assoc, !patches_app, P1, P2. reflexivity.
  - intros Hen. apply Hin, L1, Hen.
  - intros Hne. apply Hin, L2, Hne.
Qed.

Lemma api_error_at_patch_witness :
  exists r w',
    run (process_bucket "p3" "b3")
      (sample_world sample_buckets [None; None; Some (ServiceUnavailable "503 try later")])
    = (Returned r, w')
    /\ r !! "migration_status" = Some (VStr "Error: 503 try later")
    /\ r !! "storage_class" = Some (VStr "")
    /\ ELog INFO "Migrated bucket 'b3' in project 'p3' to ARCHIVE." ∈ trace w'.
Proof.
  pose (w := sample_world sample_buckets
               [None; None; Some (ServiceUnavailable "503 try later")]).
  pose (bk := mkBucket "b3" (sample_props true (Some "NEARLINE"))).
  assert (Hf : fetch "p3" "b3" w = (inr bk, (fetch "p3" "b3" w).2))
    by (vm_compute; reflexivity).
  assert (Hneed : autoclass_enabled (props bk) = false
                  \/ autoclass_terminal_storage_class (props bk) <> Some "ARCHIVE")
    by (right; discriminate).
  assert (Hh : head (faults (fetch "p3" "b3" w).2)
               = Some (Some (ServiceUnavailable "503 try later")))
    by (vm_compute; reflexivity).
  destruct (api_error_at_patch "p3" "b3" w _ bk _ Hf Hneed Hh eq_refl)
    as (r & w' & H1 & H2 & H3 & _ & _ & _ & _ & _ & _ & H10).
  exists r, w'. split_and!; try assumption. apply H10. discriminate.
Defined.

(** X6. An exception that leaves [process_bucket] is never a
    [GoogleAPIError], and it is one the service raised: in particular the
    [Exception("Failed after 5 retries")] of the decorator cannot come out
    of [process_bucket] unless the service itself raised it. *)
Theorem escaping_exception (p b : string) (w : World) (e : exn) :
  (run (process_bucket p b) w).1 = Raised e ->
  is_GoogleAPIError e = false /\ Some e ∈ faults w.
Proof.
  intros Hrun.
  destruct (leaves_run (fun e => Some e ∈ faults w \/ exists m, e = NotFound m)
              (fun m => or_intror (ex_intro _ m eq_refl))
              _ _ _ w
              ltac:(apply Forall_forall; intros f Hf e' ->; left; exact Hf)
              (process_bucket_leaves _ p b)) as [H _].
  rewrite Hrun in H. destruct H as [Hapi [Hin | [m ->]]]; [auto | discriminate Hapi].
Qed.

Lemma escaping_exception_witness :
  is_GoogleAPIError (PyException "no credentials") = false
  /\ Some (PyException "no credentials")
     ∈ faults (sample_world sample_buckets [Some (PyException "no credentials")]).
Proof.
  apply (escaping_exception "p1" "b1"
           (sample_world sample_buckets [Some (PyException "no credentials")])).
  rewrite run_process_bucket, run_process_bucket_body. reflexivity.
Defined.

Lemma row_columns (p b : string) (bp : BucketProps) (s : string) (e : exn) :
  dom (response_row p b bp s) = columns /\ dom (error_row p b e) = columns.
Proof.
  unfold response_row, error_row, spread. simpl.
  rewrite !dom_insert_L, dom_empty_L. unfold columns. simpl.
  split; set_solver.
Qed.

(** X7. Every row [process_bucket] returns, on the success paths and on the
    error path alike, has exactly the nine columns of the report. *)
Theorem returned_row_columns (p b : string) (w : World) (r : Row) :
  (run (process_bucket p b) w).1 = Returned r ->
  dom r = columns.
Proof.
  rewrite run_process_bucket, run_process_bucket_body.
  destruct (fetch p b w) as [[e|bucket] w1]; unfold on_exception.
  - destruct (is_GoogleAPIError e); simpl; [|discriminate].
    intros [= <-]. apply (row_columns p b (props (mkBucket b (sample_props true None))) "" e).
  - destruct (_ && _); simpl.
    + intros [= <-]. apply (row_columns p b (props bucket) "Skipped" (PyException "")).
    + destruct (world_patch _ _) as [[e|u] w2]; simpl.
      * destruct (is_GoogleAPIError e); simpl; [|discriminate].
        intros [= <-]. apply (row_columns p b (props bucket) "" e).
      * intros [= <-]. apply (row_columns p b (props bucket) "Migrated" (PyException "")).
Qed.

Lemma returned_row_columns_witness :
  dom (error_row "p9" "missing" (NotFound "404 missing")) = columns.
Proof.
  apply (returned_row_columns "p9" "missing" (sample_world sample_buckets [])).
  rewrite run_process_bucket, run_process_bucket_body. reflexivity.
Defined.

(** ** Invariants of the thread pool *)

(** Whatever holds of the futures and the world at submission, and keeps
    holding when a task performs its next operation and when a line is
    logged, holds when the [with] block is left, for every schedule. *)
Section gather_ind.
Variable P : list (Prog Row) -> World -> Prop.
Hypothesis P_step : forall fs w i p,
  P fs w -> fs !! i = Some p -> P (<[i := (step p w).1]> fs) (step p w).2.
Hypothesis P_log : forall fs w l m, P fs w -> P fs (emit (ELog l m) w).

Lemma P_work (i : nat) (st : Executor) (w : World) :
  P (futures st) w -> P (futures (work i st w).1) (work i st w).2.
Proof.
  intros HP. unfold work.
  destruct (futures st !! i) as [p|] eqn:Hi; [|exact HP].
  pose proof (P_step _ _ i p HP Hi) as HP'.
  destruct (step p w) as [p' w'].
  repeat case_bool_decide; simpl; assumption.
Qed.

Lemma P_collect (i : nat) (st : Executor) (w : World) :
  P (futures st) w -> P (futures (collect i st w).1) (collect i st w).2.
Proof.
  intros HP. unfold collect.
  case_bool_decide; [exact HP|].
  destruct (futures st !! i) as [[r|e| | | | | | ]|]; simpl; try exact HP.
  apply P_log. exact HP.
Qed.

Lemma P_run_schedule (sched : list action) (st : Executor) (w : World) :
  P (futures st) w ->
  P (futures (run_schedule sched (st, w)).1) (run_schedule sched (st, w)).2.
Proof.
  unfold run_schedule. revert st w.
  induction sched as [|a sched IH]; intros st w HP; simpl; [exact HP|].
  destruct a as [i|i]; simpl.
  - pose proof (P_work i st w HP) as H.
    destruct (work i st w) as [st' w']. apply IH. exact H.
  - pose proof (P_collect i st w HP) as H.
    destruct (collect i st w) as [st' w']. apply IH. exact H.
Qed.

Lemma P_settle (p : Prog Row) :
  forall (fs : list (Prog Row)) (w : World) (i : nat),
    fs !! i = Some p -> P fs w ->
    P (<[i := (settle p w).1]> fs) (settle p w).2.
Proof.
  assert (Hstep : forall (q : Prog Row) fs w i,
             fs !! i = Some q -> P fs w ->
             (forall fs' w', fs' !! i = Some (step q w).1 -> P fs' w' ->
                             P (<[i := (settle (step q w).1 w').1]> fs')
                               (settle (step q w).1 w').2) ->
             settle q w = settle (step q w).1 (step q w).2 ->
             P (<[i := (settle q w).1]> fs) (settle q w).2).
  { intros q fs w i Hi HP IH Heq. rewrite Heq.
    pose proof (P_step fs w i q HP Hi) as HP1.
    specialize (IH (<[i := (step q w).1]> fs) (step q w).2).
    rewrite list_insert_insert_eq in IH. apply IH; [|exact HP1].
    apply list_lookup_insert_eq. eapply lookup_lt_Some. exact Hi. }
  assert (Hsettle : forall (q : Prog Row) w,
             settle q w = settle (step q w).1 (step q w).2).
  { intros q w. unfold settle. rewrite run_step. reflexivity. }
  induction p as [a|e|pid k IH|c n k IH|b k IH|l m k IH|k IH|q k IH];
    intros fs w i Hi HP.
  - simpl. rewrite list_insert_id by assumption. exact HP.
  - simpl. rewrite list_insert_id by assumption. exact HP.
  - apply Hstep; auto; intros fs' w'; simpl;
      destruct (world_client pid w) as [r w1]; apply IH.
  - apply Hstep; auto; intros fs' w'; simpl;
      destruct (world_get_bucket c n w) as [r w1]; apply IH.
  - apply Hstep; auto; intros fs' w'; simpl;
      destruct (world_patch b w) as [r w1]; apply IH.
  - apply Hstep; auto; intros fs' w'; simpl; apply IH.
  - apply Hstep; auto; intros fs' w'; simpl;
      destruct (world_random w) as [r w1]; apply IH.
  - apply Hstep; auto; intros fs' w'; simpl; apply IH.
Qed.

Lemma P_settle_all (fs : list (Prog Row)) :
  forall (pre : list (Prog Row)) (w : World),
    P (pre ++ fs) w ->
    P (pre ++ (settle_all fs w).1) (settle_all fs w).2.
Proof.
  induction fs as [|p fs IH]; intros pre w HP; simpl; [exact HP|].
  pose proof (P_settle p (pre ++ p :: fs) w (length pre)
                (list_lookup_middle _ _ _ _ eq_refl) HP) as H1.
  destruct (settle p w) as [p' w1]. simpl in H1.
  rewrite insert_app_r_alt, Nat.sub_diag in H1 by lia. simpl in H1.
  specialize (IH (pre ++ [p']) w1). rewrite <- app_assoc in IH. simpl in IH.
  specialize (IH H1).
  destruct (settle_all fs w1) as [fs' w2]. simpl in *.
  rewrite <- app_assoc in IH. exact IH.
Qed.

Lemma P_drain (st : Executor) (w : World) :
  P (futures st) w -> P (futures (drain (st, w)).1) (drain (st, w)).2.
Proof.
  intros HP. unfold drain.
  pose proof (P_settle_all (futures st) [] w HP) as H1.
  destruct (settle_all (futures st) w) as [fs w1]. simpl in H1.
  generalize (seq 0 (length fs)).
  set (st1 := mkExecutor fs (length fs) (yielded st) (results st)).
  change fs with (futures st1) in H1. clearbody st1. clear HP.
  intros l. revert st1 w1 H1.
  induction l as [|i l IH]; intros st1 w1 H1; simpl; [exact H1|].
  pose proof (P_collect i st1 w1 H1) as H2.
  destruct (collect i st1 w1) as [st2 w2]. apply IH. exact H2.
Qed.

Lemma P_gather (sched : list action) (df : list (string * string)) (w : World) :
  P (futures (submit_all df)) w ->
  P (futures (gather sched df w).1) (gather sched df w).2.
Proof.
  intros HP. unfold gather.
  pose proof (P_run_schedule sched _ w HP) as H.
  destruct (run_schedule sched (submit_all df, w)) as [st w']. apply P_drain. exact H.
Qed.
End gather_ind.

Lemma run_schedule_nil (sched : list action) (st : Executor) (w : World) :
  futures st = [] -> run_schedule sched (st, w) = (st, w).
Proof.
  intros Hnil. unfold run_schedule.
  induction sched as [|a sched IH]; simpl; [reflexivity|].
  destruct a as [i|i]; simpl.
  - unfold work. rewrite Hnil. simpl. exact IH.
  - unfold collect. rewrite Hnil. simpl. case_bool_decide; exact IH.
Qed.

(** X9. On an input without rows, whatever the schedule, [process_csv]
    makes no call to the service and logs nothing: it writes an empty report
    and returns it. *)
Theorem process_csv_empty (sched : list action) (file_path output_path : string)
    (w : World) :
  inputs w !! file_path = Some [] ->
  process_csv sched file_path output_path w = (Returned [], to_csv output_path [] w)
  /\ trace (to_csv output_path [] w) = trace w ++ [EToCsv output_path]
  /\ remote (to_csv output_path [] w) = remote w
  /\ faults (to_csv output_path [] w) = faults w.
Proof.
  intros Hin. unfold process_csv. rewrite Hin. unfold gather.
  rewrite run_schedule_nil by reflexivity. simpl. auto.
Qed.

Lemma process_csv_empty_witness :
  process_csv sample_schedule "empty.csv" "empty_output.csv"
    (mkWorld (list_to_map sample_buckets) [] [] [] {[ "empty.csv" := [] ]} ∅)
  = (Returned [],
     to_csv "empty_output.csv" []
       (mkWorld (list_to_map sample_buckets) [] [] [] {[ "empty.csv" := [] ]} ∅)).
Proof.
  apply (process_csv_empty sample_schedule "empty.csv" "empty_output.csv"
           (mkWorld (list_to_map sample_buckets) [] [] [] {[ "empty.csv" := [] ]} ∅)).
  reflexivity.
Defined.

(** ** Calls made by a batch *)

Lemma budget_mono {A : Type} (t : tariff) (p : Prog A) :
  forall n m : nat, (n <= m)%nat -> budget t n p -> budget t m p.
Proof.
  induction p as [a|e|pid k IH|c nm k IH|b k IH|l ms k IH|k IH|q k IH];
    intros n m Hnm Hp; simpl in *; auto.
  - destruct Hp as [H1 H2]. split; [lia|]. intros r. apply (IH r (n - on_client t)%nat); [lia|auto].
  - destruct Hp as [H1 H2]. split; [lia|]. intros r. apply (IH r (n - on_get t)%nat); [lia|auto].
  - destruct Hp as [H1 H2]. split; [lia|]. intros r. apply (IH r (n - on_patch t)%nat); [lia|auto].
  - eauto.
  - intros j. eauto.
  - destruct Hp as [H1 H2]. split; [lia|]. apply (IH (n - on_sleep t)%nat); [lia|auto].
Qed.

Lemma budget_try_except {A : Type} (t : tariff) (p : Prog A) (catches : exn -> bool)
    (h : exn -> Prog A) :
  forall n : nat,
    budget t n p -> (forall e, budget t 0 (h e)) ->
    budget t n (try_except p catches h).
Proof.
  induction p as [a|e|pid k IH|c nm k IH|b k IH|l ms k IH|k IH|q k IH];
    intros n Hp Hh; simpl in *; auto.
  - destruct (catches e); [|exact I]. apply (budget_mono t _ 0%nat); [lia|auto].
  - destruct Hp as [H1 H2]. split; auto.
  - destruct Hp as [H1 H2]. split; auto.
  - destruct Hp as [H1 H2]. split; auto.
  - destruct Hp as [H1 H2]. split; auto.
Qed.

(** A handler that cannot be reached costs nothing. *)
Lemma budget_try_except_unreached {A : Type} (t : tariff) (p : Prog A)
    (catches : exn -> bool) (h : exn -> Prog A) :
  forall n : nat,
    budget t n p ->
    leaves (fun _ => True) (fun _ => True) (fun e => catches e = false) p ->
    budget t n (try_except p catches h).
Proof.
  induction p as [a|e|pid k IH|c nm k IH|b k IH|l ms k IH|k IH|q k IH];
    intros n Hp Hl; simpl in *; auto.
  - rewrite Hl. exact I.
  - destruct Hp as [H1 H2]. split; auto.
  - destruct Hp as [H1 H2]. split; auto.
  - destruct Hp as [H1 H2]. split; auto.
  - destruct Hp as [H1 H2]. split; auto.
Qed.

Lemma process_bucket_budget (t : tariff) (p b : string) :
  budget t (invocation_cost t) (process_bucket p b).
Proof.
  rewrite process_bucket_eq.
  apply budget_try_except_unreached.
  - unfold process_bucket_body. apply budget_try_except; [|intros e; exact I].
    unfold invocation_cost. simpl. split; [lia|].
    intros [e|c]; simpl; [exact I|]. split; [lia|].
    intros [e|bk]; simpl; [exact I|].
    destruct (negb (autoclass_enabled (props bk))); simpl;
      destruct (negb (bool_decide _)); simpl;
      try exact I; (split; [lia|]; intros [e|[]]; exact I).
  - eapply leaves_mono; [| |apply (process_bucket_body_leaves (fun _ => True) p b)].
    + auto.
    + intros e [He _]. destruct e; simpl in *; try discriminate; reflexivity.
Qed.

Lemma total_emit (t : tariff) (ev : event) (w : World) :
  total t (emit ev w) = (total t w + cost t ev)%nat.
Proof. unfold total. simpl. rewrite sum_list_with_app. simpl. lia. Qed.

Lemma total_next_fault (t : tariff) (w : World) : total t (next_fault w).2 = total t w.
Proof.
  unfold total. destruct (next_fault_spec w) as (_ & T & _). rewrite T. reflexivity.
Qed.

(** One step spends what it costs. *)
Lemma budget_step {A : Type} (t : tariff) (n : nat) (p : Prog A) (w : World) :
  budget t n p ->
  exists n' : nat,
    budget t n' (step p w).1 /\ (total t (step p w).2 + n' <= total t w + n)%nat.
Proof.
  destruct p as [a|e|pid k|c nm k|b k|l ms k|k|q k]; simpl; intros Hp.
  - exists n. auto.
  - exists n. auto.
  - destruct Hp as [H1 H2]. exists (n - on_client t)%nat.
    unfold world_client.
    pose proof (total_next_fault t (emit (EClient pid) w)) as HT.
    rewrite total_emit in HT. simpl in HT.
    destruct (next_fault (emit (EClient pid) w)) as [[e|] w']; simpl in *;
      (split; [apply H2 | lia]).
  - destruct Hp as [H1 H2]. exists (n - on_get t)%nat.
    unfold world_get_bucket.
    pose proof (total_next_fault t (emit (EGetBucket (client_project c) nm) w)) as HT.
    rewrite total_emit in HT. simpl in HT.
    destruct (next_fault (emit (EGetBucket (client_project c) nm) w)) as [[e|] w'];
      simpl in *; [split; [apply H2 | lia]|].
    destruct (remote w' !! nm); simpl; (split; [apply H2 | lia]).
  - destruct Hp as [H1 H2]. exists (n - on_patch t)%nat.
    destruct (world_patch_spec b w) as (T & _).
    assert (HT : total t (world_patch b w).2 = (total t w + on_patch t)%nat).
    { unfold total. rewrite T, sum_list_with_app. simpl. lia. }
    destruct (world_patch b w) as [r w']; simpl in *. split; [apply H2 | lia].
  - exists n. rewrite total_emit. simpl. split; [exact Hp | lia].
  - exists n. unfold world_random, total.
    destruct (jitter w); simpl; (split; [apply Hp | lia]).
  - destruct Hp as [H1 H2]. exists (n - on_sleep t)%nat. rewrite total_emit. simpl.
    split; [exact H2 | lia].
Qed.

Lemma sum_list_insert (ns : list nat) (i : nat) (x y : nat) :
  ns !! i = Some x ->
  (sum_list (<[i := y]> ns) + x = sum_list ns + y)%nat.
Proof.
  revert i. induction ns as [|a ns IH]; intros [|i] Hi; simpl in *; try discriminate.
  - injection Hi as ->. lia.
  - specialize (IH i Hi). lia.
Qed.

Lemma submit_all_budget (t : tariff) (df : list (string * string)) :
  Forall2 (budget t) (replicate (length df) (invocation_cost t))
    (futures (submit_all df)).
Proof.
  unfold submit_all. simpl.
  induction df as [|row df IH]; simpl; constructor; [|exact IH].
  apply process_bucket_budget.
Qed.

(** The calls of a batch cost at most [invocation_cost] a row. *)
Lemma gather_budget (t : tariff) (sched : list action) (df : list (string * string))
    (w : World) :
  (total t (gather sched df w).2 <= total t w + length df * invocation_cost t)%nat.
Proof.
  pose (B := (total t w + length df * invocation_cost t)%nat).
  assert (H : exists ns, Forall2 (budget t) ns (futures (gather sched df w).1)
                         /\ (total t (gather sched df w).2 + sum_list ns <= B)%nat).
  { apply (P_gather (fun fs w' => exists ns, Forall2 (budget t) ns fs
                                             /\ (total t w' + sum_list ns <= B)%nat)).
    - intros fs w' i p (ns & Hf & Hb) Hi.
      destruct (Forall2_lookup_r _ _ _ _ _ Hf Hi) as (n & Hn & Hp).
      destruct (budget_step t n p w' Hp) as (n' & Hp' & Hle).
      exists (<[i := n']> ns). split.
      + apply Forall2_insert; assumption.
      + pose proof (sum_list_insert ns i n n' Hn). lia.
    - intros fs w' l m (ns & Hf & Hb). exists ns. split; [exact Hf|].
      rewrite total_emit. simpl. lia.
    - exists (replicate (length df) (invocation_cost t)). split.
      + apply submit_all_budget.
      + rewrite sum_list_replicate. unfold B. lia. }
  destruct H as (ns & _ & Hle). unfold B in Hle. lia.
Qed.

Lemma total_counts (tr : list event) :
  sum_list_with (cost (mkTariff 1 0 0 0)) tr = length (clients tr)
  /\ sum_list_with (cost (mkTariff 0 1 0 0)) tr = length (gets tr)
  /\ sum_list_with (cost (mkTariff 0 0 1 0)) tr = length (patches tr)
  /\ sum_list_with (cost (mkTariff 0 0 0 1)) tr = length (sleeps tr).
Proof.
  induction tr as [|ev tr (IH1 & IH2 & IH3 & IH4)]; [auto|].
  destruct ev; csimpl; rewrite ?IH1, ?IH2, ?IH3, ?IH4; auto.
Qed.

Lemma gather_extends (sched : list action) (df : list (string * string)) (w : World) :
  extends w (gather sched df w).2.
Proof.
  apply (P_gather (fun _ w' => extends w w')).
  - intros fs w' i p Hext _. eapply extends_trans; [exact Hext | apply extends_step].
  - intros fs w' l m Hext. eapply extends_trans; [exact Hext | apply extends_emit].
  - apply extends_refl.
Qed.

(** X11. Whatever the schedule, a batch builds at most one client, calls
    [get_bucket] at most once and [patch] at most once for each input row,
    and never sleeps: the backoff of the decorator does not run in
    [process_csv]. *)
Theorem batch_calls_bounded (sched : list action) (file_path output_path : string)
    (w : World) (df : list (string * string)) :
  inputs w !! file_path = Some df ->
  let w' := (process_csv sched file_path output_path w).2 in
  (length (clients (trace w')) <= length (clients (trace w)) + length df)%nat
  /\ (length (gets (trace w')) <= length (gets (trace w)) + length df)%nat
  /\ (length (patches (trace w')) <= length (patches (trace w)) + length df)%nat
  /\ sleeps (trace w') = sleeps (trace w).
Proof.
  intros Hin. simpl.
  destruct (process_csv_eq sched file_path output_path w df Hin) as (Heq & _).
  rewrite Heq. simpl.
  pose proof (gather_budget (mkTariff 1 0 0 0) sched df w) as H1.
  pose proof (gather_budget (mkTariff 0 1 0 0) sched df w) as H2.
  pose proof (gather_budget (mkTariff 0 0 1 0) sched df w) as H3.
  pose proof (gather_budget (mkTariff 0 0 0 1) sched df w) as H4.
  destruct (gather_extends sched df w) as [evs Hext].
  unfold total, invocation_cost in *. simpl in *.
  destruct (total_counts (trace (gather sched df w).2)) as (C1 & C2 & C3 & C4).
  destruct (total_counts (trace w)) as (D1 & D2 & D3 & D4).
  rewrite C1, D1 in H1. rewrite C2, D2 in H2. rewrite C3, D3 in H3. rewrite C4, D4 in H4.
  unfold clients, gets, patches, sleeps in *.
  rewrite !omap_app, !length_app. simpl.
  split_and!; try lia.
  rewrite app_nil_r. rewrite Hext, omap_app in *.
  rewrite length_app in H4.
  destruct (omap _ evs) as [|q qs]; [rewrite app_nil_r; reflexivity|].
  simpl in H4. lia.
Qed.

Lemma batch_calls_bounded_witness :
  let w' := (process_csv sample_schedule "in.csv" "in_output.csv" sample_input).2 in
  (length (clients (trace w')) <= 0 + 3)%nat
  /\ (length (gets (trace w')) <= 0 + 3)%nat
  /\ (length (patches (trace w')) <= 0 + 3)%nat
  /\ sleeps (trace w') = [].
Proof.
  apply (batch_calls_bounded sample_schedule "in.csv" "in_output.csv" sample_input
           [("p1", "b1"); ("p2", "b2"); ("p3", "b3")]).
  reflexivity.
Defined.

(** ** What a batch does to the buckets *)

Lemma remote_next_fault (w : World) : remote (next_fault w).2 = remote w.
Proof. destruct (next_fault_spec w) as (R & _). exact R. Qed.

Lemma remote_world_client (pid : string) (w : World) :
  remote (world_client pid w).2 = remote w.
Proof.
  unfold world_client. pose proof (remote_next_fault (emit (EClient pid) w)) as H.
  destruct (next_fault _) as [[e|] w']; exact H.
Qed.

Lemma remote_world_get_bucket (c : Client) (n : string) (w : World) :
  remote (world_get_bucket c n w).2 = remote w
  /\ forall bucket, (world_get_bucket c n w).1 = inr bucket ->
       name bucket = n /\ remote w !! n = Some (props bucket).
Proof.
  unfold world_get_bucket.
  pose proof (remote_next_fault (emit (EGetBucket (client_project c) n) w)) as H.
  destruct (next_fault _) as [[e|] w']; simpl in *; [split; [exact H | discriminate]|].
  destruct (remote w' !! n) as [bp|] eqn:Hn; simpl; (split; [exact H|]);
    [|discriminate].
  intros bucket [= <-]. simpl. split; congruence.
Qed.

Lemma remote_world_random (w : World) : remote (world_random w).2 = remote w.
Proof. unfold world_random. destruct (jitter w); reflexivity. Qed.

Lemma keeps_step {A : Type} (J : gmap string BucketProps -> Prop) (p : Prog A) (w : World) :
  J (remote w) -> keeps J p ->
  J (remote (step p w).2) /\ keeps J (step p w).1.
Proof.
  intros HJ Hp.
  destruct p as [a|e|pid k|c n k|b k|l m k|k|q k]; simpl in *; auto.
  - pose proof (remote_world_client pid w) as R.
    destruct (world_client pid w) as [r w']; simpl in *. rewrite R. auto.
  - destruct (remote_world_get_bucket c n w) as [R _]. specialize (Hp w HJ).
    destruct (world_get_bucket c n w) as [r w']; simpl in *. rewrite R. auto.
  - specialize (Hp w HJ). destruct (world_patch b w) as [r w']; simpl in *. exact Hp.
  - pose proof (remote_world_random w) as R.
    destruct (world_random w) as [j w']; simpl in *. rewrite R. auto.
Qed.

Lemma keeps_try_except {A : Type} (J : gmap string BucketProps -> Prop) (p : Prog A)
    (catches : exn -> bool) (h : exn -> Prog A) :
  keeps J p -> (forall e, keeps J (h e)) -> keeps J (try_except p catches h).
Proof.
  intros Hp Hh. induction p; simpl in *; auto.
  - destruct (catches e); [apply Hh | exact I].
  - intros w HJ. destruct (Hp w HJ). auto.
Qed.

Lemma keeps_wrapper_loop {A : Type} (J : gmap string BucketProps -> Prop)
    (n : Z) (base : number) (func : Prog A) (m : nat) :
  keeps J func ->
  forall a : Z, Z.of_nat m = Z.max 0 (n - a) -> keeps J (wrapper_loop n base func a).
Proof.
  intros Hf. induction m as [|m IH]; intros a Hm; rewrite wrapper_loop_eq.
  - rewrite bool_decide_eq_false_2 by lia. exact I.
  - rewrite bool_decide_eq_true_2 by lia.
    apply keeps_try_except; [exact Hf|].
    intros e. unfold backoff. simpl.
    destruct (mul_int base (2 ^ a)) as [x|scaled]; simpl; [exact I|].
    intros j. destruct (add_float scaled j) as [x|d]; simpl; [exact I|].
    unfold time_sleep. destruct (sleep_refuses d); simpl; [exact I|].
    apply IH. lia.
Qed.

Lemma migration_of_patch (rm0 : gmap string BucketProps) (names : list string)
    (bucket : Bucket) (w : World) :
  name bucket ∈ names ->
  untouched <$> Some (props bucket) = untouched <$> rm0 !! name bucket ->
  migration_of rm0 names (remote w) ->
  migration_of rm0 names (remote (world_patch (corrected bucket) w).2).
Proof.
  intros Hin Hu [H1 H2].
  destruct (corrected_spec bucket) as (Hn & C1 & C2 & C3 & C4 & C5 & C6).
  destruct (world_patch_spec (corrected bucket) w) as (_ & _ & _ & _ & R & _).
  destruct (world_patch (corrected bucket) w) as [[e|u] w2]; simpl in *;
    rewrite R; [split; assumption|].
  rewrite Hn. split.
  - intros n. destruct (decide (n = name bucket)) as [->|Hne].
    + rewrite lookup_insert_eq, <- Hu. simpl. unfold untouched. congruence.
    + rewrite lookup_insert_ne by congruence. apply H1.
  - intros n bp. destruct (decide (n = name bucket)) as [->|Hne].
    + rewrite lookup_insert_eq. intros [= <-]. right. auto.
    + rewrite lookup_insert_ne by congruence. apply H2.
Qed.

Lemma process_bucket_keeps (rm0 : gmap string BucketProps) (names : list string)
    (p b : string) :
  b ∈ names -> keeps (migration_of rm0 names) (process_bucket p b).
Proof.
  intros Hin. unfold process_bucket, retry_with_backoff, wrapper.
  apply (keeps_wrapper_loop _ 5 (PyInt 1) _ 5); [|reflexivity].
  unfold process_bucket_body.
  apply keeps_try_except; [|intros e; exact I].
  simpl. intros [e|c]; simpl; [exact I|].
  intros w HJ.
  destruct (remote_world_get_bucket c b w) as [_ Hb].
  destruct (world_get_bucket c b w) as [[e|bk] w1]; simpl; [exact I|].
  destruct (Hb bk eq_refl) as [Hname Hrem].
  assert (Hu : untouched <$> Some (props bk) = untouched <$> rm0 !! name bk).
  { destruct HJ as [H1 _]. rewrite <- H1, Hname, Hrem. reflexivity. }
  assert (Hpatch : forall w2, migration_of rm0 names (remote w2) ->
                     migration_of rm0 names (remote (world_patch (corrected bk) w2).2)).
  { intros w2. apply migration_of_patch; [|exact Hu]. rewrite Hname. exact Hin. }
  unfold corrected in Hpatch.
  destruct bk as [n [sc l lt [|] t rp]]; simpl in *.
  - case_bool_decide; simpl; [exact I|].
    intros w2 HJ2. split; [apply Hpatch; exact HJ2|].
    destruct (world_patch _ w2).1 as [e|[]]; exact I.
  - case_bool_decide; simpl;
      (intros w2 HJ2; split; [apply Hpatch; exact HJ2|];
       destruct (world_patch _ w2).1 as [e|[]]; exact I).
Qed.

(** X12. Whatever the schedule and whatever fails, a batch leaves the
    storage service with the same buckets, each with the storage class,
    location, location type and requester-pays flag it had; a bucket that is
    not named in the input is exactly as it was, and a bucket named in the
    input is either exactly as it was or has Autoclass on with terminal class
    ARCHIVE. *)
Theorem batch_changes_autoclass_only (sched : list action)
    (file_path output_path : string) (w : World) (df : list (string * string)) :
  inputs w !! file_path = Some df ->
  let w' := (process_csv sched file_path output_path w).2 in
  (forall n, untouched <$> remote w' !! n = untouched <$> remote w !! n)
  /\ (forall n bp, remote w' !! n = Some bp ->
        remote w !! n = Some bp
        \/ (n ∈ df.*2 /\ autoclass_enabled bp = true
            /\ autoclass_terminal_storage_class bp = Some "ARCHIVE")).
Proof.
  intros Hin. simpl.
  destruct (process_csv_eq sched file_path output_path w df Hin) as (Heq & _).
  rewrite Heq. simpl.
  assert (H : Forall (keeps (migration_of (remote w) df.*2))
                (futures (gather sched df w).1)
              /\ migration_of (remote w) df.*2 (remote (gather sched df w).2)).
  { apply (P_gather (fun fs w' => Forall (keeps (migration_of (remote w) df.*2)) fs
                                  /\ migration_of (remote w) df.*2 (remote w'))).
    - intros fs w' i p [Hf HJ] Hi.
      destruct (keeps_step _ p w' HJ (Forall_lookup_1 _ _ _ _ Hf Hi)) as [HJ' Hp'].
      split; [|exact HJ'].
      apply Forall_insert; assumption.
    - intros fs w' l m HJ. exact HJ.
    - split.
      + simpl. apply Forall_forall. intros q Hq.
        apply list_elem_of_fmap in Hq as (row & -> & Hrow).
        apply process_bucket_keeps. apply list_elem_of_fmap. exists row. auto.
      + split; auto. }
  exact (proj2 H).
Qed.

Lemma batch_changes_autoclass_only_witness :
  untouched
    <$> remote (process_csv sample_schedule "in.csv" "in_output.csv" sample_input_api).2
        !! "b3"
  = untouched <$> remote sample_input_api !! "b3".
Proof.
  apply (batch_changes_autoclass_only sample_schedule "in.csv" "in_output.csv"
           sample_input_api [("p1", "b1"); ("p2", "b2"); ("p3", "b3")]).
  reflexivity.
Defined.

(** ** The command line *)

Example splitext_samples :
  splitext "buckets.csv" = ("buckets", ".csv")
  /\ splitext "data/2024.d/buckets" = ("data/2024.d/buckets", "")
  /\ splitext "dir/.hidden" = ("dir/.hidden", "")
  /\ splitext "dir/..a.tar.gz" = ("dir/..a.tar", ".gz")
  /\ splitext "run.log" = ("run", ".log")
  /\ splitext "" = ("", "").
Proof. vm_compute. split_and!; reflexivity. Qed.

Lemma length_append (s1 s2 : string) :
  String.length (s1 +:+ s2) = (String.length s1 + String.length s2)%nat.
Proof.
  induction s1 as [|a s1 IH]; [reflexivity|].
  change (String a s1 +:+ s2) with (String a (s1 +:+ s2)). simpl. rewrite IH. reflexivity.
Qed.

Lemma substring_all (s : string) : String.substring 0 (String.length s) s = s.
Proof. induction s as [|a s IH]; simpl; [reflexivity | rewrite IH; reflexivity]. Qed.

Lemma substring_split (s : string) :
  forall n : nat, (n <= String.length s)%nat ->
    String.substring 0 n s +:+ String.substring n (String.length s - n) s = s.
Proof.
  induction s as [|a s IH]; intros [|n] Hn; simpl in *; try lia.
  - reflexivity.
  - change ("" +:+ String a (String.substring 0 (String.length s) s))
      with (String a (String.substring 0 (String.length s) s)).
    rewrite substring_all. reflexivity.
  - change (String a (String.substring 0 n s)
            +:+ String.substring n (String.length s - n) s)
      with (String a (String.substring 0 n s
                      +:+ String.substring n (String.length s - n) s)).
    rewrite IH by lia. reflexivity.
Qed.

Lemma rfind_from_bound (c : Ascii.ascii) (s : string) :
  forall i found : Z,
    rfind_from c s i found = found
    \/ (i <= rfind_from c s i found < i + len s).
Proof.
  unfold len. induction s as [|a s IH]; intros i found; simpl; [auto|].
  destruct (IH (i + 1) (if Ascii.eqb a c then i else found)) as [H|H].
  - rewrite H. destruct (Ascii.eqb a c); [right; lia | auto].
  - right. lia.
Qed.

Lemma splitext_loop_eq (p : string) (d f : Z) :
  splitext_loop p d f =
  if bool_decide (f < d) then
    if negb (String.eqb (slice p f (f + 1)) ".")
    then Some (slice p 0 d, slice p d (len p))
    else splitext_loop p d (f + 1)
  else None.
Proof.
  rewrite splitext_loop_equation_1.
  destruct (Z_lt_dec f d) as [H|H].
  - rewrite bool_decide_eq_true_2 by assumption. reflexivity.
  - rewrite bool_decide_eq_false_2 by assumption. reflexivity.
Qed.

Lemma splitext_loop_cases (p : string) (d : Z) (m : nat) :
  forall f : Z, Z.of_nat m = Z.max 0 (d - f) ->
    splitext_loop p d f = None
    \/ splitext_loop p d f = Some (slice p 0 d, slice p d (len p)).
Proof.
  induction m as [|m IH]; intros f Hm; rewrite splitext_loop_eq.
  - rewrite bool_decide_eq_false_2 by lia. auto.
  - rewrite bool_decide_eq_true_2 by lia.
    destruct (negb _); [auto|]. apply IH. lia.
Qed.

(** [splitext] splits: the two parts put together are the path. *)
Lemma splitext_join (p : string) : (splitext p).1 +:+ (splitext p).2 = p.
Proof.
  assert (Hnil : forall s : string, s +:+ "" = s).
  { induction s as [|a s IH]; [reflexivity|].
    change (String a s +:+ "") with (String a (s +:+ "")). rewrite IH. reflexivity. }
  unfold splitext. case_bool_decide as Hd; [|apply Hnil].
  destruct (splitext_loop_cases p (rfind "." p)
              (Z.to_nat (Z.max 0 (rfind "." p - (rfind "/" p + 1))))
              (rfind "/" p + 1) ltac:(lia)) as [-> | ->];
    [apply Hnil|].
  simpl. unfold slice, rfind in *.
  destruct (rfind_from_bound "." p 0 (-1)) as [H | H].
  - destruct (rfind_from_bound "/" p 0 (-1)) as [H' | H']; lia.
  - unfold len in *. rewrite Z.sub_0_r.
    replace (Z.to_nat (Z.of_nat (String.length p) - rfind_from "." p 0 (-1)))
      with (String.length p - Z.to_nat (rfind_from "." p 0 (-1)))%nat by lia.
    apply substring_split. lia.
Qed.

Lemma rfind_from_char (c : Ascii.ascii) (s : string) :
  forall i found : Z,
    rfind_from c s i found = found
    \/ (i <= rfind_from c s i found
        /\ String.get (Z.to_nat (rfind_from c s i found - i)) s = Some c).
Proof.
  induction s as [|a s IH]; intros i found; simpl; [auto|].
  destruct (IH (i + 1) (if Ascii.eqb a c then i else found)) as [H|[H1 H2]].
  - rewrite H. destruct (Ascii.eqb a c) eqn:Hac; [|auto].
    right. apply Ascii.eqb_eq in Hac as ->.
    rewrite Z.sub_diag. simpl. split; [lia | reflexivity].
  - right. split; [lia|].
    replace (Z.to_nat (rfind_from c s (i + 1) (if Ascii.eqb a c then i else found) - i))
      with (S (Z.to_nat (rfind_from c s (i + 1) (if Ascii.eqb a c then i else found)
                         - (i + 1)))) by lia.
    exact H2.
Qed.

Lemma substring_head (s : string) :
  forall (n m : nat) (c : Ascii.ascii),
    String.get n s = Some c ->
    exists t, String.substring n (S m) s = String c t.
Proof.
  induction s as [|a s IH]; intros [|n] m c Hg; simpl in *; try discriminate.
  - injection Hg as ->. eauto.
  - apply IH. exact Hg.
Qed.

(** The extension [splitext] gives is empty or begins with a period. *)
Lemma splitext_ext (p : string) :
  (splitext p).2 = "" \/ exists t, (splitext p).2 = String "." t.
Proof.
  unfold splitext. case_bool_decide as Hd; [|auto].
  destruct (splitext_loop_cases p (rfind "." p)
              (Z.to_nat (Z.max 0 (rfind "." p - (rfind "/" p + 1))))
              (rfind "/" p + 1) ltac:(lia)) as [-> | ->]; [auto|].
  right. simpl. unfold slice, rfind, len in *.
  destruct (rfind_from_bound "." p 0 (-1)) as [H | H].
  { destruct (rfind_from_bound "/" p 0 (-1)) as [H' | H']; lia. }
  destruct (rfind_from_char "." p 0 (-1)) as [H' | [_ H']]; [lia|].
  rewrite Z.sub_0_r in H'. unfold len in H.
  replace (Z.to_nat (Z.of_nat (String.length p) - rfind_from "." p 0 (-1)))
    with (S (String.length p - Z.to_nat (rfind_from "." p 0 (-1)) - 1)) by lia.
  apply substring_head. exact H'.
Qed.

(** X13. Whatever the input path, the path of the report and the path of
    the log differ from it (the report never overwrites the input): the name
    part and the extension [splitext] gives make up the input path again, the
    report path is seven characters longer, and the log path ends in
    "_output.log" where the input path has its extension, which is empty or
    begins with a period. *)
Theorem derived_paths_differ_from_input (input_csv_file : string) :
  (splitext input_csv_file).1 +:+ (splitext input_csv_file).2 = input_csv_file
  /\ output_csv_file input_csv_file <> input_csv_file
  /\ log_file input_csv_file <> input_csv_file
  /\ String.length (output_csv_file input_csv_file)
     = (String.length input_csv_file + 7)%nat.
Proof.
  pose proof (splitext_join input_csv_file) as Hj.
  pose proof (splitext_ext input_csv_file) as Hext.
  assert (Hlen : String.length (output_csv_file input_csv_file)
                 = (String.length input_csv_file + 7)%nat).
  { unfold output_csv_file. destruct (splitext input_csv_file) as [nm ext]. simpl in Hj.
    rewrite <- Hj, !length_append. simpl. lia. }
  split_and!; try assumption.
  - intros Heq. rewrite Heq in Hlen. lia.
  - unfold log_file. destruct (splitext input_csv_file) as [nm ext]. simpl in *.
    intros Heq. rewrite <- Hj in Heq. apply String.app_inj in Heq.
    destruct Hext as [-> | [t ->]]; discriminate Heq.
Qed.

(** X14. The report and the log are one and the same file exactly when the
    extension of the input path is ".log". *)
Theorem report_is_log_iff (input_csv_file : string) :
  output_csv_file input_csv_file = log_file input_csv_file
  <-> (splitext input_csv_file).2 = ".log".
Proof.
  unfold output_csv_file, log_file.
  destruct (splitext input_csv_file) as [nm ext]. simpl. split.
  - intros Heq. apply String.app_inj in Heq.
    change ("_output" +:+ ext) with (String "_" (String "o" (String "u" (String "t"
              (String "p" (String "u" (String "t" ext))))))) in Heq.
    congruence.
  - intros ->. reflexivity.
Qed.

Example report_is_log_sample :
  output_csv_file "buckets.log" = "buckets_output.log"
  /\ log_file "buckets.log" = "buckets_output.log"
  /\ output_csv_file "buckets.csv" = "buckets_output.csv"
  /\ log_file "buckets.csv" = "buckets_output.log"
  /\ output_csv_file "buckets" = "buckets_output".
Proof. vm_compute. split_and!; reflexivity. Qed.
